(** * Akima interpolation: a shallow embedding of [akima_interpolation.py]

    The development follows the Python module function by function:
    [calculate_slopes], [calculate_spline_slopes],
    [calculate_cubic_coefficients], the three entry points
    [akima_interpolate_4points], [akima_interpolate_4points_with_cache] and
    [akima_interpolate_npoints], and the older copy of the N-point entry
    point kept under [Homework/].

    Numbers.  The arrays hold finite numbers and arithmetic is exact: a
    sample, a query and every intermediate value is a canonical rational
    ([Qc]), so that numeric equality ([==] in Python) is Leibniz equality.
    The one operation of the program that leaves the finite numbers is a
    division by zero, which numpy evaluates to [inf], [-inf] or [nan]; the
    type [xnum] holds the outcome of such a raw division.

    Errors.  Python exceptions are values of [exn]; a function that can
    raise returns a [result].

    Arrays.  A numpy array is a list, read with [getitem] and written with
    [setitem], both with Python's index rules (negative indices count from
    the end, anything else out of range raises [IndexError]).  The
    functions that index arrays take the accesses as a parameter: the
    program is the instance at Python's accesses, and the instance at
    accesses that refuse a negative index shows where the program stays
    within [[0, len)]. *)

From Stdlib Require Import QArith Qcanon Qcabs Field Lia Lqa ZArith.
From stdpp Require Import base option list sorting numbers gmap.

Local Open Scope Qc_scope.

(** ** Exact arithmetic *)

Module Num.

(** [3.0]; [2.0] is stdpp's notation [2] for [1 + 1]. *)
Definition three : Qc := 1 + 1 + 1.

(** Python's [a == b], [a <= b], [a < b], [a >= b] on finite numbers. *)
Definition eqb (a b : Qc) : bool := Qeq_bool a b.
Definition leb (a b : Qc) : bool := Qle_bool a b.
Definition ltb (a b : Qc) : bool := negb (Qle_bool b a).
Definition geb (a b : Qc) : bool := Qle_bool b a.

(** A numpy float after a division that was not guarded: finite, or one
    of the three non-finite values. *)
Inductive xnum : Type :=
| Fin (r : Qc)
| PInf
| NInf
| NaN.

Definition isfinite (v : xnum) : bool :=
  match v with Fin _ => true | _ => false end.

(** [a / b] as numpy evaluates it with division warnings ignored:
    [a / 0] is [inf] or [-inf] by the sign of [a], and [0 / 0] is [nan].
    Arithmetic being exact, a quotient by a non-zero divisor is the
    rational [a / b]: the overflow of a floating-point quotient to [inf]
    is not part of [Num.div]. *)
Definition div (a b : Qc) : xnum :=
  if eqb b 0 then
    if ltb 0 a then PInf else if ltb a 0 then NInf else NaN
  else Fin (a / b).

Definition sign_pos (r : Qc) : bool := ltb 0 r.

(** Product and sum with a non-finite operand, by the IEEE 754 rules. *)
Definition mul (u v : xnum) : xnum :=
  match u, v with
  | Fin a, Fin b => Fin (a * b)
  | NaN, _ | _, NaN => NaN
  | Fin a, PInf | PInf, Fin a =>
      if eqb a 0 then NaN else if sign_pos a then PInf else NInf
  | Fin a, NInf | NInf, Fin a =>
      if eqb a 0 then NaN else if sign_pos a then NInf else PInf
  | PInf, PInf | NInf, NInf => PInf
  | PInf, NInf | NInf, PInf => NInf
  end.

Definition add (u v : xnum) : xnum :=
  match u, v with
  | Fin a, Fin b => Fin (a + b)
  | NaN, _ | _, NaN => NaN
  | PInf, NInf | NInf, PInf => NaN
  | PInf, _ | _, PInf => PInf
  | NInf, _ | _, NInf => NInf
  end.

End Num.

(** ** Exceptions *)

(** The four [ValueError]s of the module, named as the specification names
    them, numpy's own [ValueError] for shapes that do not broadcast,
    [IndexError] and [KeyError].
    - [InsufficientPointsError]: "at least 2 data points are required";
    - [LengthMismatchError]: "the lengths of x_data and y_data differ";
    - [FixedArityError]: "this function requires 4 data points";
    - [DegenerateInputError]: "the x coordinates are duplicated". *)
Inductive exn : Type :=
| InsufficientPointsError
| LengthMismatchError
| FixedArityError
| DegenerateInputError
| BroadcastError
| IndexError
| KeyError.

Inductive result (A : Type) : Type :=
| Ok (a : A)
| Raise (e : exn).
Arguments Ok {A} a.
Arguments Raise {A} e.

#[global] Instance result_ret : MRet result := fun A a => Ok a.
#[global] Instance result_bind : MBind result := fun A B f r =>
  match r with Ok a => f a | Raise e => Raise e end.
#[global] Instance result_fmap : FMap result := fun A B f r =>
  match r with Ok a => Ok (f a) | Raise e => Raise e end.

Definition is_ok {A} (r : result A) : Prop := exists a, r = Ok a.

#[global] Instance exn_eq_dec : EqDecision exn.
Proof. solve_decision. Defined.

(** ** numpy arrays *)

Module Np.

Section Arrays.
Context {A : Type}.

(** Python's index normalisation: [a[i]] with [-len <= i < len]. *)
Definition norm_index (a : list A) (i : Z) : option nat :=
  let n := Z.of_nat (length a) in
  let j := if (i <? 0)%Z then (i + n)%Z else i in
  if ((0 <=? j)%Z && (j <? n)%Z) then Some (Z.to_nat j) else None.

(** [a[i]] *)
Definition getitem (a : list A) (i : Z) : result A :=
  match norm_index a i with
  | Some j => match a !! j with Some v => Ok v | None => Raise IndexError end
  | None => Raise IndexError
  end.

(** [a[i] = v] *)
Definition setitem (a : list A) (i : Z) (v : A) : result (list A) :=
  match norm_index a i with
  | Some j => Ok (<[j:=v]> a)
  | None => Raise IndexError
  end.

(** [a[indices]] with an array of indices. *)
Fixpoint take_indices (a : list A) (indices : list Z) : result (list A) :=
  match indices with
  | [] => Ok []
  | i :: rest =>
      v ← getitem a i;
      vs ← take_indices a rest;
      Ok (v :: vs)
  end.

(** [a[1:]] and [a[:-1]] *)
Definition slice_from_1 (a : list A) : list A := drop 1 a.
Definition slice_to_last (a : list A) : list A := take (length a - 1) a.
End Arrays.

(** [len(a)] *)
Definition len {A} (a : list A) : Z := Z.of_nat (length a).

(** An elementwise binary operation on one-dimensional arrays: equal
    lengths pair up, an array of length one is stretched, anything else
    does not broadcast. *)
Definition elementwise {A B C} (f : A → B → C) (a : list A) (b : list B)
  : result (list C) :=
  if decide (length a = length b) then Ok (zip_with f a b)
  else match a, b with
       | u :: [], _ => Ok (map (f u) b)
       | _, v :: [] => Ok (map (fun u => f u v) a)
       | _, _ => Raise BroadcastError
       end.

(** [np.where(np.isfinite(v), v, 0.0)] on one entry; the result is
    finite. *)
Definition where_finite (v : Num.xnum) : Qc :=
  match v with Num.Fin r => r | _ => 0 end.

(** [np.zeros(n)] *)
Definition zeros (n : nat) : list Qc := replicate n 0.

(** [range(lo, hi)] *)
Definition range (lo hi : Z) : list Z :=
  map (fun k => (lo + Z.of_nat k)%Z) (seq 0 (Z.to_nat (hi - lo))).

(** [for i in idxs: s = body(i, s)], stopping at the first exception. *)
Fixpoint for_each {S} (idxs : list Z) (body : Z → S → result S) (s : S)
  : result S :=
  match idxs with
  | [] => Ok s
  | i :: rest => s' ← body i s; for_each rest body s'
  end.

(** [np.argsort]: the indices of [a] in ascending order of their keys.
    Modelled as an insertion sort of the (key, index) pairs, which keeps
    equal keys in their input order.  numpy's default sort promises no
    order among equal keys: the sorted abscissas are the same whatever
    the order of ties, the sorted ordinates of tied abscissas need not
    be. *)
Fixpoint insert_key (p : Qc * Z) (l : list (Qc * Z)) : list (Qc * Z) :=
  match l with
  | [] => [p]
  | q :: rest =>
      if Num.leb p.1 q.1 then p :: q :: rest else q :: insert_key p rest
  end.

Definition sort_keys (l : list (Qc * Z)) : list (Qc * Z) :=
  foldr insert_key [] l.

Definition enumerate (a : list Qc) : list (Qc * Z) :=
  zip a (range 0 (len a)).

Definition argsort (a : list Qc) : list Z := (sort_keys (enumerate a)).*2.

(** [np.searchsorted(a, v)] with the default [side='left']: numpy's
    binary search, [fuel] bounding the number of halvings. *)
Fixpoint binsearch_left (fuel : nat) (a : list Qc) (v : Qc) (lo hi : nat)
  : nat :=
  match fuel with
  | O => lo
  | S fuel' =>
      if (lo <? hi)%nat then
        let mid := (lo + (hi - lo) / 2)%nat in
        match a !! mid with
        | Some am =>
            if Num.ltb am v then binsearch_left fuel' a v (S mid) hi
            else binsearch_left fuel' a v lo mid
        | None => lo
        end
      else lo
  end.

Definition searchsorted (a : list Qc) (v : Qc) : Z :=
  Z.of_nat (binsearch_left (length a) a v 0 (length a)).

(** An access that takes no index outside [[0, len)]: where Python counts
    a negative index from the end, it raises [IndexError]. *)
Definition strict_index (a : list Qc) (i : Z) : option nat :=
  if ((0 <=? i)%Z && (i <? Z.of_nat (length a))%Z) then Some (Z.to_nat i)
  else None.

Definition getitem_strict (a : list Qc) (i : Z) : result Qc :=
  match strict_index a i with
  | Some j => match a !! j with Some v => Ok v | None => Raise IndexError end
  | None => Raise IndexError
  end.

Definition setitem_strict (a : list Qc) (i : Z) (v : Qc) : result (list Qc) :=
  match strict_index a i with
  | Some j => Ok (<[j:=v]> a)
  | None => Raise IndexError
  end.

(** The way an array is read and written: [python] is what the program
    runs with; [strict] is the same program run with the accesses that
    refuse a negative index, used to show that an access stays within
    [[0, len)]. *)
Record indexing : Type := Indexing {
  read : list Qc → Z → result Qc;
  write : list Qc → Z → Qc → result (list Qc)
}.

Definition python : indexing := Indexing getitem setitem.
Definition strict : indexing := Indexing getitem_strict setitem_strict.

End Np.

Notation "a .[ i ]" := (Np.getitem a i%Z)
  (at level 1, i at level 200, left associativity, format "a .[ i ]").

(** ** The interpolation module *)

(** [calculate_slopes]: secant slopes of adjacent samples; a non-finite
    ratio becomes [0.0].  The division of numpy is a parameter,
    [divide]: the module runs with the exact [Num.div], and what does not
    depend on it holds of a division that overflows as well. *)
Definition calculate_slopes_with (divide : Qc → Qc → Num.xnum)
  (x y : list Qc) : result (list Qc) :=
  dy ← Np.elementwise Qcminus (Np.slice_from_1 y) (Np.slice_to_last y);
  dx ← Np.elementwise Qcminus (Np.slice_from_1 x) (Np.slice_to_last x);
  slopes ← Np.elementwise divide dy dx;
  Ok (map Np.where_finite slopes).

Definition calculate_slopes (x y : list Qc) : result (list Qc) :=
  calculate_slopes_with Num.div x y.

(** The body of the loop of [calculate_spline_slopes] at node [i], with
    the array accesses [ix]. *)
Definition akima_node_with (ix : Np.indexing) (m : list Qc) (i : Z)
  (s : list Qc) : result (list Qc) :=
  m_i1 ← Np.read ix m (i + 1);
  m_i ← Np.read ix m i;
  let w1 := Qcabs (m_i1 - m_i) in
  m_im1 ← Np.read ix m (i - 1);
  m_im2 ← Np.read ix m (i - 2);
  let w2 := Qcabs (m_im1 - m_im2) in
  let denominator := w1 + w2 in
  if Num.eqb denominator 0 then
    a ← Np.read ix m (i - 1);
    b ← Np.read ix m i;
    Np.write ix s i ((a + b) / 2)
  else
    a ← Np.read ix m (i - 1);
    b ← Np.read ix m i;
    Np.write ix s i ((w1 * a + w2 * b) / denominator).

Definition akima_node (m : list Qc) (i : Z) (s : list Qc)
  : result (list Qc) :=
  akima_node_with Np.python m i s.

(** [calculate_spline_slopes]: the tangent at every node, with the array
    accesses [ix]. *)
Definition calculate_spline_slopes_with (ix : Np.indexing) (x y : list Qc)
  : result (list Qc) :=
  let n := Np.len x in
  if (n <? 2)%Z then Raise InsufficientPointsError else
  m ← calculate_slopes x y;
  let s := Np.zeros (length x) in
  if (n =? 2)%Z then
    m0 ← Np.read ix m 0;
    s ← Np.write ix s 0 m0;
    m0 ← Np.read ix m 0;
    s ← Np.write ix s 1 m0;
    Ok s
  else
    m0 ← Np.read ix m 0;
    s ← Np.write ix s 0 m0;
    s ← (if (2 <? n)%Z then
           m0 ← Np.read ix m 0;
           m1 ← Np.read ix m 1;
           Np.write ix s 1 ((m0 + m1) / 2)
         else Ok s);
    s ← Np.for_each (Np.range 2 (n - 2)) (akima_node_with ix m) s;
    s ← (if (2 <? n)%Z then
           a ← Np.read ix m (n - 3);
           b ← Np.read ix m (n - 2);
           Np.write ix s (n - 2) ((a + b) / 2)
         else Ok s);
    b ← Np.read ix m (n - 2);
    s ← Np.write ix s (n - 1) b;
    Ok s.

Definition calculate_spline_slopes (x y : list Qc) : result (list Qc) :=
  calculate_spline_slopes_with Np.python x y.

(** [calculate_cubic_coefficients]: the cubic of segment [i] in
    [x - x[i]], with the array accesses [ix]. *)
Definition calculate_cubic_coefficients_with (ix : Np.indexing)
  (x y s : list Qc) (i : Z) : result (Qc * Qc * Qc * Qc) :=
  x_i ← Np.read ix x i;
  x_i1 ← Np.read ix x (i + 1);
  y_i ← Np.read ix y i;
  y_i1 ← Np.read ix y (i + 1);
  s_i ← Np.read ix s i;
  s_i1 ← Np.read ix s (i + 1);
  let h := x_i1 - x_i in
  if Num.eqb h 0 then Raise DegenerateInputError else
  let m_i := (y_i1 - y_i) / h in
  let a_i := y_i in
  let b_i := s_i in
  let c_i := (Num.three * m_i - 2 * s_i - s_i1) / h in
  let d_i := (s_i + s_i1 - 2 * m_i) / (h * h) in
  Ok (a_i, b_i, c_i, d_i).

Definition calculate_cubic_coefficients (x y s : list Qc) (i : Z)
  : result (Qc * Qc * Qc * Qc) :=
  calculate_cubic_coefficients_with Np.python x y s i.

(** Which return statement of an entry point produced the value. *)
Inductive branch : Type :=
| BelowLine          (* linear extrapolation below the range *)
| BelowCoincident    (* below, the first two abscissas coincide *)
| BelowSingle        (* below, [len(x_sorted) <= 1] *)
| AboveLine          (* linear extrapolation above the range *)
| AboveCoincident    (* above, the last two abscissas coincide *)
| AboveSingle        (* above, [len(x_sorted) <= 1] *)
| Segment (idx : Z). (* the cubic of segment [idx] *)

#[global] Instance branch_eq_dec : EqDecision branch.
Proof. solve_decision. Defined.

(** The [if x_interp <= x_sorted[0]: ... elif x_interp >= x_sorted[-1]: ...]
    statement shared by the three entry points; [None] when neither test
    holds and control falls through. *)
Definition extrapolate (x_sorted y_sorted : list Qc) (x_interp : Qc)
  : result (option (branch * Qc)) :=
  x_first ← x_sorted.[0];
  if Num.leb x_interp x_first then
    if (1 <? Np.len x_sorted)%Z then
      x1 ← x_sorted.[1];
      x0 ← x_sorted.[0];
      let dx := x1 - x0 in
      if Num.eqb dx 0 then
        y0 ← y_sorted.[0];
        Ok (Some (BelowCoincident, y0))
      else
        y0 ← y_sorted.[0];
        y1 ← y_sorted.[1];
        y0' ← y_sorted.[0];
        x0' ← x_sorted.[0];
        Ok (Some (BelowLine, y0 + (y1 - y0') / dx * (x_interp - x0')))
    else
      y0 ← y_sorted.[0];
      Ok (Some (BelowSingle, y0))
  else
    x_last ← x_sorted.[-1];
    if Num.geb x_interp x_last then
      if (1 <? Np.len x_sorted)%Z then
        xl ← x_sorted.[-1];
        xp ← x_sorted.[-2];
        let dx := xl - xp in
        if Num.eqb dx 0 then
          yl ← y_sorted.[-1];
          Ok (Some (AboveCoincident, yl))
        else
          yl ← y_sorted.[-1];
          yl' ← y_sorted.[-1];
          yp ← y_sorted.[-2];
          xl' ← x_sorted.[-1];
          Ok (Some (AboveLine, yl + (yl' - yp) / dx * (x_interp - xl')))
      else
        yl ← y_sorted.[-1];
        Ok (Some (AboveSingle, yl))
    else Ok None.

(** The segment-location step:
    [idx = np.searchsorted(x_sorted, x_interp) - 1] and
    [idx = max(0, min(idx, len(x_sorted) - 2))]. *)
Definition locate_segment (x_sorted : list Qc) (x_interp : Qc) : Z :=
  let idx := (Np.searchsorted x_sorted x_interp - 1)%Z in
  Z.max 0 (Z.min idx (Np.len x_sorted - 2)).

(** The cubic [a + b*dx + c*dx*dx + d*dx*dx*dx]. *)
Definition cubic (coef : Qc * Qc * Qc * Qc) (dx : Qc) : Qc :=
  let '(a, b, c, d) := coef in
  a + b * dx + c * dx * dx + d * dx * dx * dx.

(** The in-range tail shared by the three entry points: locate the
    segment, take its coefficients, evaluate the cubic; with the array
    accesses [ix]. *)
Definition evaluate_segment_with (ix : Np.indexing)
  (x_sorted y_sorted s : list Qc) (x_interp : Qc) : result (branch * Qc) :=
  let idx := locate_segment x_sorted x_interp in
  coef ← calculate_cubic_coefficients_with ix x_sorted y_sorted s idx;
  x_idx ← Np.read ix x_sorted idx;
  let dx := x_interp - x_idx in
  Ok (Segment idx, cubic coef dx).

Definition evaluate_segment (x_sorted y_sorted s : list Qc) (x_interp : Qc)
  : result (branch * Qc) :=
  evaluate_segment_with Np.python x_sorted y_sorted s x_interp.

(** [np.argsort(x_data)], [x_data[sorted_indices]],
    [y_data[sorted_indices]]. *)
Definition sort_samples (x_data y_data : list Qc)
  : result (list Qc * list Qc) :=
  let sorted_indices := Np.argsort x_data in
  x_sorted ← Np.take_indices x_data sorted_indices;
  y_sorted ← Np.take_indices y_data sorted_indices;
  Ok (x_sorted, y_sorted).

(** What follows the sort in [akima_interpolate_4points] and
    [akima_interpolate_npoints]. *)
Definition interpolate_sorted (x_sorted y_sorted : list Qc) (x_interp : Qc)
  : result (branch * Qc) :=
  out ← extrapolate x_sorted y_sorted x_interp;
  match out with
  | Some r => Ok r
  | None =>
      s ← calculate_spline_slopes x_sorted y_sorted;
      evaluate_segment x_sorted y_sorted s x_interp
  end.

(** [akima_interpolate_4points], with the branch taken. *)
Definition akima_interpolate_4points_traced (x_data y_data : list Qc)
  (x_interp : Qc) : result (branch * Qc) :=
  if bool_decide (length x_data ≠ 4%nat) || bool_decide (length y_data ≠ 4%nat)
  then Raise FixedArityError else
  '(x_sorted, y_sorted) ← sort_samples x_data y_data;
  interpolate_sorted x_sorted y_sorted x_interp.

Definition akima_interpolate_4points (x_data y_data : list Qc) (x_interp : Qc)
  : result Qc :=
  snd <$> akima_interpolate_4points_traced x_data y_data x_interp.

(** [akima_interpolate_npoints], with the branch taken. *)
Definition akima_interpolate_npoints_traced (x_data y_data : list Qc)
  (x_interp : Qc) : result (branch * Qc) :=
  if bool_decide (length x_data ≠ length y_data)
  then Raise LengthMismatchError else
  if (Np.len x_data <? 2)%Z then Raise InsufficientPointsError else
  '(x_sorted, y_sorted) ← sort_samples x_data y_data;
  interpolate_sorted x_sorted y_sorted x_interp.

Definition akima_interpolate_npoints (x_data y_data : list Qc) (x_interp : Qc)
  : result Qc :=
  snd <$> akima_interpolate_npoints_traced x_data y_data x_interp.

(** *** The cached entry point *)

(** A value of [_akima_4points_cache]: the dictionary with the keys
    ['x_sorted'], ['y_sorted'] and ['s']. *)
Record cache_entry : Type := CacheEntry {
  entry_x_sorted : list Qc;
  entry_y_sorted : list Qc;
  entry_s : list Qc
}.

(** [_akima_4points_cache], keyed by [(tuple(x_data), tuple(y_data))]. *)
Abbreviation cache := (gmap (list Qc * list Qc) cache_entry).

(** The statement [if data_key not in _akima_4points_cache: ...]; an
    exception leaves the dictionary as it was. *)
Definition cache_fill (c : cache) (x_data y_data : list Qc) : result cache :=
  let data_key := (x_data, y_data) in
  match c !! data_key with
  | Some _ => Ok c
  | None =>
      '(x_sorted, y_sorted) ← sort_samples x_data y_data;
      s ← calculate_spline_slopes x_sorted y_sorted;
      Ok (<[data_key := CacheEntry x_sorted y_sorted s]> c)
  end.

(** [akima_interpolate_4points_with_cache]: the value returned or the
    exception raised, and the dictionary afterwards. *)
Definition akima_interpolate_4points_with_cache (c : cache)
  (x_data y_data : list Qc) (x_interp : Qc) : result Qc * cache :=
  let data_key := (x_data, y_data) in
  match cache_fill c x_data y_data with
  | Raise e => (Raise e, c)
  | Ok c' =>
      (match c' !! data_key with
       | None => Raise KeyError
       | Some entry =>
           let x_sorted := entry_x_sorted entry in
           let y_sorted := entry_y_sorted entry in
           let s := entry_s entry in
           out ← extrapolate x_sorted y_sorted x_interp;
           match out with
           | Some r => Ok r.2
           | None => snd <$> evaluate_segment x_sorted y_sorted s x_interp
           end
       end, c')
  end.

(** *** The copy under [Homework/] *)

Module Homework.

(** The out-of-range branches of [Homework/akima_interpolation.py]: the
    quotient by [x_sorted[1] - x_sorted[0]] is taken as it comes. *)
Definition extrapolate (x_sorted y_sorted : list Qc) (x_interp : Qc)
  : result (option Num.xnum) :=
  x_first ← x_sorted.[0];
  if Num.leb x_interp x_first then
    if (1 <? Np.len x_sorted)%Z then
      y0 ← y_sorted.[0];
      y1 ← y_sorted.[1];
      y0' ← y_sorted.[0];
      x1 ← x_sorted.[1];
      x0 ← x_sorted.[0];
      x0' ← x_sorted.[0];
      Ok (Some (Num.add (Num.Fin y0)
                  (Num.mul (Num.div (y1 - y0') (x1 - x0))
                     (Num.Fin (x_interp - x0')))))
    else
      y0 ← y_sorted.[0];
      Ok (Some (Num.Fin y0))
  else
    x_last ← x_sorted.[-1];
    if Num.geb x_interp x_last then
      if (1 <? Np.len x_sorted)%Z then
        yl ← y_sorted.[-1];
        yl' ← y_sorted.[-1];
        yp ← y_sorted.[-2];
        xl ← x_sorted.[-1];
        xp ← x_sorted.[-2];
        xl' ← x_sorted.[-1];
        Ok (Some (Num.add (Num.Fin yl)
                    (Num.mul (Num.div (yl' - yp) (xl - xp))
                       (Num.Fin (x_interp - xl')))))
      else
        yl ← y_sorted.[-1];
        Ok (Some (Num.Fin yl))
    else Ok None.

(** [akima_interpolate_npoints] of the copy. *)
Definition akima_interpolate_npoints (x_data y_data : list Qc)
  (x_interp : Qc) : result Num.xnum :=
  if bool_decide (length x_data ≠ length y_data)
  then Raise LengthMismatchError else
  if (Np.len x_data <? 2)%Z then Raise InsufficientPointsError else
  '(x_sorted, y_sorted) ← sort_samples x_data y_data;
  out ← extrapolate x_sorted y_sorted x_interp;
  match out with
  | Some v => Ok v
  | None =>
      s ← calculate_spline_slopes x_sorted y_sorted;
      r ← evaluate_segment x_sorted y_sorted s x_interp;
      Ok (Num.Fin r.2)
  end.

End Homework.

(** * Properties *)

(** ** Comparisons and exact arithmetic *)

Lemma eqb_true (a b : Qc) : Num.eqb a b = true ↔ a = b.
Proof.
  unfold Num.eqb. rewrite Qeq_bool_iff. split.
  - apply Qc_is_canon.
  - intros ->. reflexivity.
Qed.

Lemma eqb_false (a b : Qc) : Num.eqb a b = false ↔ a ≠ b.
Proof.
  rewrite <- eqb_true. destruct (Num.eqb a b); split; congruence.
Qed.

Lemma leb_true (a b : Qc) : Num.leb a b = true ↔ a ≤ b.
Proof. unfold Num.leb. apply Qle_bool_iff. Qed.

Lemma leb_false (a b : Qc) : Num.leb a b = false ↔ b < a.
Proof.
  rewrite Qclt_nge, <- leb_true. destruct (Num.leb a b); split; congruence.
Qed.

Lemma ltb_true (a b : Qc) : Num.ltb a b = true ↔ a < b.
Proof.
  unfold Num.ltb. rewrite negb_true_iff. apply (leb_false b a).
Qed.

Lemma ltb_false (a b : Qc) : Num.ltb a b = false ↔ b ≤ a.
Proof.
  unfold Num.ltb. rewrite negb_false_iff. apply (leb_true b a).
Qed.

Lemma geb_true (a b : Qc) : Num.geb a b = true ↔ b ≤ a.
Proof. apply leb_true. Qed.

Lemma geb_false (a b : Qc) : Num.geb a b = false ↔ a < b.
Proof. apply leb_false. Qed.

(** Goals about the order of numbers that are atoms. *)
Ltac qc_order := unfold Qcle, Qclt in *; lra.

Lemma Qcminus_eq_0 (a b : Qc) : a - b = 0 ↔ a = b.
Proof.
  split.
  - intros H. rewrite <- (Qcplus_0_l b), <- H. ring.
  - intros ->. ring.
Qed.

Lemma div_finite (a b : Qc) : b ≠ 0 → Num.div a b = Num.Fin (a / b).
Proof.
  intros Hb. unfold Num.div. apply eqb_false in Hb. now rewrite Hb.
Qed.


(** ** Arrays *)

(** [a[i]] for an index known to be in range. *)
Definition item (a : list Qc) (i : nat) : Qc := default 0 (a !! i).

Lemma item_lookup (a : list Qc) (i : nat) :
  (i < length a)%nat → a !! i = Some (item a i).
Proof.
  intros Hi. unfold item. destruct (lookup_lt_is_Some_2 a i Hi) as [v ->].
  reflexivity.
Qed.

Lemma lookup_item (a : list Qc) (i : nat) (v : Qc) :
  a !! i = Some v → item a i = v.
Proof. unfold item. now intros ->. Qed.

Lemma norm_index_in_range {A} (a : list A) (i : Z) :
  (0 ≤ i < Np.len a)%Z → Np.norm_index a i = Some (Z.to_nat i).
Proof.
  unfold Np.norm_index, Np.len. intros Hi.
  destruct (Z.ltb_spec i 0); [lia|].
  destruct (Z.leb_spec 0 i); [|lia].
  destruct (Z.ltb_spec i (Z.of_nat (length a))); [|lia]. reflexivity.
Qed.

Lemma norm_index_negative {A} (a : list A) (i : Z) :
  (- Np.len a ≤ i < 0)%Z →
  Np.norm_index a i = Some (Z.to_nat (i + Np.len a)).
Proof.
  unfold Np.norm_index, Np.len. intros Hi.
  destruct (Z.ltb_spec i 0); [|lia].
  destruct (Z.leb_spec 0 (i + Z.of_nat (length a))); [|lia].
  destruct (Z.ltb_spec (i + Z.of_nat (length a)) (Z.of_nat (length a))); [|lia].
  reflexivity.
Qed.

Lemma norm_index_lt {A} (a : list A) (i : Z) (j : nat) :
  Np.norm_index a i = Some j → (j < length a)%nat.
Proof.
  unfold Np.norm_index. intros H.
  destruct (_ && _) eqn:E; [|discriminate]. injection H as <-.
  apply andb_prop in E as [E1 E2]. lia.
Qed.

Lemma getitem_in_range (a : list Qc) (i : Z) :
  (0 ≤ i < Np.len a)%Z → a.[i] = Ok (item a (Z.to_nat i)).
Proof.
  intros Hi. unfold Np.getitem. rewrite norm_index_in_range by assumption.
  rewrite item_lookup; [reflexivity|]. unfold Np.len in Hi. lia.
Qed.

Lemma getitem_negative (a : list Qc) (i : Z) :
  (- Np.len a ≤ i < 0)%Z → a.[i] = Ok (item a (Z.to_nat (i + Np.len a))).
Proof.
  intros Hi. unfold Np.getitem. rewrite norm_index_negative by assumption.
  rewrite item_lookup; [reflexivity|]. unfold Np.len in *. lia.
Qed.

Lemma getitem_nat (a : list Qc) (i : nat) :
  (i < length a)%nat → a.[Z.of_nat i] = Ok (item a i).
Proof.
  intros Hi. rewrite getitem_in_range by (unfold Np.len; lia).
  now rewrite Nat2Z.id.
Qed.

Lemma setitem_in_range {A} (a : list A) (i : Z) (v : A) :
  (0 ≤ i < Np.len a)%Z → Np.setitem a i v = Ok (<[Z.to_nat i := v]> a).
Proof.
  intros Hi. unfold Np.setitem. now rewrite norm_index_in_range.
Qed.

Lemma item_insert_eq (a : list Qc) (i : nat) (v : Qc) :
  (i < length a)%nat → item (<[i := v]> a) i = v.
Proof.
  intros Hi. apply lookup_item. now apply list_lookup_insert_eq.
Qed.

Lemma item_insert_ne (a : list Qc) (i j : nat) (v : Qc) :
  i ≠ j → item (<[i := v]> a) j = item a j.
Proof.
  intros Hij. unfold item. now rewrite list_lookup_insert_ne.
Qed.

Lemma elementwise_same_length {A B C} (f : A → B → C) a b :
  length a = length b → Np.elementwise f a b = Ok (zip_with f a b).
Proof.
  intros H. unfold Np.elementwise. now rewrite decide_True.
Qed.

Lemma length_slice_from_1 {A} (a : list A) :
  length (Np.slice_from_1 a) = (length a - 1)%nat.
Proof. unfold Np.slice_from_1. now rewrite length_drop. Qed.

Lemma length_slice_to_last {A} (a : list A) :
  length (Np.slice_to_last a) = (length a - 1)%nat.
Proof. unfold Np.slice_to_last. rewrite length_take. lia. Qed.

Lemma lookup_slice_from_1 {A} (a : list A) (i : nat) :
  Np.slice_from_1 a !! i = a !! S i.
Proof. unfold Np.slice_from_1. now rewrite lookup_drop. Qed.

Lemma lookup_slice_to_last {A} (a : list A) (i : nat) :
  (S i < length a)%nat → Np.slice_to_last a !! i = a !! i.
Proof. intros Hi. unfold Np.slice_to_last. apply lookup_take_lt. lia. Qed.

(** The differences [a[1:] - a[:-1]]. *)
Lemma adjacent_differences (a : list Qc) :
  ∃ d, Np.elementwise Qcminus (Np.slice_from_1 a) (Np.slice_to_last a) = Ok d
       ∧ length d = (length a - 1)%nat
       ∧ ∀ i u v, a !! i = Some u → a !! S i = Some v → d !! i = Some (v - u).
Proof.
  eexists. split; [|split].
  - apply elementwise_same_length.
    now rewrite length_slice_from_1, length_slice_to_last.
  - rewrite length_zip_with, length_slice_from_1, length_slice_to_last. lia.
  - intros i u v Hu Hv. rewrite lookup_zip_with.
    rewrite lookup_slice_from_1, Hv. simpl.
    rewrite lookup_slice_to_last, Hu; [reflexivity|].
    now apply lookup_lt_Some in Hv.
Qed.

(** ** [calculate_slopes] *)

Lemma calculate_slopes_with_ok (divide : Qc → Qc → Num.xnum) (x y : list Qc) :
  length x = length y →
  ∃ m, calculate_slopes_with divide x y = Ok m
       ∧ length m = (length x - 1)%nat
       ∧ ∀ i xi xi1 yi yi1,
           x !! i = Some xi → x !! S i = Some xi1 →
           y !! i = Some yi → y !! S i = Some yi1 →
           m !! i = Some (Np.where_finite (divide (yi1 - yi) (xi1 - xi))).
Proof.
  intros Hlen. unfold calculate_slopes_with.
  destruct (adjacent_differences y) as (dy & -> & Hldy & Hdy).
  destruct (adjacent_differences x) as (dx & -> & Hldx & Hdx).
  simpl. rewrite elementwise_same_length by lia. simpl.
  eexists. split; [reflexivity|]. split.
  - rewrite length_map, length_zip_with. lia.
  - intros i xi xi1 yi yi1 Hxi Hxi1 Hyi Hyi1.
    rewrite list_lookup_fmap, lookup_zip_with.
    rewrite (Hdy _ _ _ Hyi Hyi1), (Hdx _ _ _ Hxi Hxi1). reflexivity.
Qed.

Lemma calculate_slopes_ok (x y : list Qc) :
  length x = length y →
  ∃ m, calculate_slopes x y = Ok m
       ∧ length m = (length x - 1)%nat
       ∧ ∀ i xi xi1 yi yi1,
           x !! i = Some xi → x !! S i = Some xi1 →
           y !! i = Some yi → y !! S i = Some yi1 →
           m !! i = Some (Np.where_finite (Num.div (yi1 - yi) (xi1 - xi))).
Proof. apply calculate_slopes_with_ok. Qed.



(** ** [calculate_spline_slopes] *)

(** The value the interior rule assigns to node [i] from the secants. *)
Definition akima_weighted (m : list Qc) (i : nat) : Qc :=
  let w1 := Qcabs (item m (i + 1) - item m i) in
  let w2 := Qcabs (item m (i - 1) - item m (i - 2)) in
  if decide (w1 + w2 = 0) then (item m (i - 1) + item m i) / 2
  else (w1 * item m (i - 1) + w2 * item m i) / (w1 + w2).

Lemma range_nil (lo hi : Z) : (hi ≤ lo)%Z → Np.range lo hi = [].
Proof.
  intros H. unfold Np.range. now replace (Z.to_nat (hi - lo)) with 0%nat by lia.
Qed.

Lemma range_cons (lo hi : Z) :
  (lo < hi)%Z → Np.range lo hi = lo :: Np.range (lo + 1) hi.
Proof.
  intros H. unfold Np.range.
  replace (Z.to_nat (hi - lo)) with (S (Z.to_nat (hi - (lo + 1)))) by lia.
  simpl. f_equal; [lia|].
  rewrite <- seq_shift, map_map. apply map_ext. intros k. lia.
Qed.

Lemma elem_of_range (lo hi i : Z) : i ∈ Np.range lo hi ↔ (lo ≤ i < hi)%Z.
Proof.
  unfold Np.range. rewrite list_elem_of_In, in_map_iff. split.
  - intros (k & <- & Hk). apply in_seq in Hk. lia.
  - intros Hi. exists (Z.to_nat (i - lo)). split; [lia|]. apply in_seq. lia.
Qed.

(** An access that serves every index within [[0, len)]. *)
Definition in_range_access (ix : Np.indexing) : Prop :=
  (∀ a i, (0 ≤ i < Np.len a)%Z → Np.read ix a i = Ok (item a (Z.to_nat i)))
  ∧ (∀ a i v, (0 ≤ i < Np.len a)%Z →
       Np.write ix a i v = Ok (<[Z.to_nat i := v]> a)).

Lemma python_in_range : in_range_access Np.python.
Proof.
  split; simpl.
  - apply getitem_in_range.
  - intros a i v. apply setitem_in_range.
Qed.

Lemma strict_index_in_range (a : list Qc) (i : Z) :
  (0 ≤ i < Np.len a)%Z → Np.strict_index a i = Some (Z.to_nat i).
Proof.
  unfold Np.strict_index, Np.len. intros Hi.
  destruct (Z.leb_spec 0 i); [|lia].
  destruct (Z.ltb_spec i (Z.of_nat (length a))); [|lia]. reflexivity.
Qed.

Lemma strict_index_negative (a : list Qc) (i : Z) :
  (i < 0)%Z → Np.strict_index a i = None.
Proof.
  unfold Np.strict_index. intros Hi. now destruct (Z.leb_spec 0 i); [lia|].
Qed.

Lemma strict_in_range : in_range_access Np.strict.
Proof.
  split; simpl.
  - intros a i Hi. unfold Np.getitem_strict.
    rewrite strict_index_in_range by assumption.
    rewrite item_lookup; [reflexivity|]. unfold Np.len in Hi. lia.
  - intros a i v Hi. unfold Np.setitem_strict.
    now rewrite strict_index_in_range.
Qed.

Lemma read_nat (ix : Np.indexing) (a : list Qc) (i : nat) :
  in_range_access ix → (i < length a)%nat →
  Np.read ix a (Z.of_nat i) = Ok (item a i).
Proof.
  intros [Hr _] Hi. rewrite Hr by (unfold Np.len; lia). now rewrite Nat2Z.id.
Qed.

Lemma write_nat (ix : Np.indexing) (a : list Qc) (i : nat) (v : Qc) :
  in_range_access ix → (i < length a)%nat →
  Np.write ix a (Z.of_nat i) v = Ok (<[i := v]> a).
Proof.
  intros [_ Hw] Hi. rewrite Hw by (unfold Np.len; lia). now rewrite Nat2Z.id.
Qed.

Lemma akima_node_with_ok (ix : Np.indexing) (m s : list Qc) (i : nat) :
  in_range_access ix →
  (2 ≤ i)%nat → (i + 1 < length m)%nat → (i < length s)%nat →
  akima_node_with ix m (Z.of_nat i) s = Ok (<[i := akima_weighted m i]> s).
Proof.
  intros Hix H2 Hm Hs. unfold akima_node_with.
  replace (Z.of_nat i + 1)%Z with (Z.of_nat (i + 1)) by lia.
  replace (Z.of_nat i - 1)%Z with (Z.of_nat (i - 1)) by lia.
  replace (Z.of_nat i - 2)%Z with (Z.of_nat (i - 2)) by lia.
  rewrite !(read_nat ix m) by first [assumption | lia]. simpl.
  rewrite !(write_nat ix s) by first [assumption | lia].
  unfold akima_weighted.
  destruct (Num.eqb _ 0) eqn:E.
  - apply eqb_true in E. now rewrite decide_True.
  - apply eqb_false in E. now rewrite decide_False.
Qed.

Lemma akima_node_ok (m s : list Qc) (i : nat) :
  (2 ≤ i)%nat → (i + 1 < length m)%nat → (i < length s)%nat →
  akima_node m (Z.of_nat i) s = Ok (<[i := akima_weighted m i]> s).
Proof. apply akima_node_with_ok, python_in_range. Qed.

(** The loop [for i in range(lo, n - 2)] writes the interior rule at the
    nodes it visits and leaves the others alone. *)
Lemma interior_loop_ok (ix : Np.indexing) (m : list Qc) (k : nat) :
  in_range_access ix →
  ∀ (lo : nat) (s : list Qc),
  (2 ≤ lo)%nat → ((0 < k)%nat → (lo + k + 1 ≤ length m)%nat) →
  length s = S (length m) →
  ∃ s', Np.for_each (Np.range (Z.of_nat lo) (Z.of_nat (lo + k)))
          (akima_node_with ix m) s = Ok s'
        ∧ length s' = length s
        ∧ (∀ i, (lo ≤ i < lo + k)%nat → item s' i = akima_weighted m i)
        ∧ (∀ i, ¬ (lo ≤ i < lo + k)%nat → item s' i = item s i).
Proof.
  intros Hix. induction k as [|k IH]; intros lo s Hlo Hm Hs.
  - rewrite range_nil by lia. exists s. simpl. repeat split; auto. lia.
  - rewrite range_cons by lia. simpl.
    rewrite akima_node_with_ok by first [assumption | lia]. simpl.
    replace (Z.of_nat lo + 1)%Z with (Z.of_nat (S lo)) by lia.
    replace (Z.of_nat (lo + S k)) with (Z.of_nat (S lo + k)) by lia.
    destruct (IH (S lo) (<[lo := akima_weighted m lo]> s))
      as (s' & Hrun & Hlen & Hin & Hout).
    { lia. } { lia. } { now rewrite length_insert. }
    exists s'. split; [exact Hrun|]. rewrite length_insert in Hlen.
    split; [exact Hlen|]. split.
    + intros i Hi. destruct (decide (i = lo)) as [->|Hne].
      * rewrite Hout by lia. apply item_insert_eq. lia.
      * apply Hin. lia.
    + intros i Hi. rewrite Hout by lia. apply item_insert_ne. lia.
Qed.

(** The loop does not depend on the way its accesses treat an index
    outside [[0, len)]: it makes no such access. *)
Lemma interior_loop_access (ix : Np.indexing) (m : list Qc) (k : nat) :
  in_range_access ix →
  ∀ (lo : nat) (s : list Qc),
  (2 ≤ lo)%nat → ((0 < k)%nat → (lo + k + 1 ≤ length m)%nat) →
  length s = S (length m) →
  Np.for_each (Np.range (Z.of_nat lo) (Z.of_nat (lo + k)))
    (akima_node_with ix m) s
  = Np.for_each (Np.range (Z.of_nat lo) (Z.of_nat (lo + k)))
      (akima_node_with Np.python m) s.
Proof.
  intros Hix. induction k as [|k IH]; intros lo s Hlo Hm Hs.
  - now rewrite range_nil by lia.
  - rewrite range_cons by lia. simpl.
    rewrite !akima_node_with_ok
      by first [assumption | apply python_in_range | lia].
    simpl.
    replace (Z.of_nat lo + 1)%Z with (Z.of_nat (S lo)) by lia.
    replace (Z.of_nat (lo + S k)) with (Z.of_nat (S lo + k)) by lia.
    apply IH; [lia|lia|now rewrite length_insert].
Qed.

Lemma length_zeros (n : nat) : length (Np.zeros n) = n.
Proof. apply length_replicate. Qed.

(** Side conditions on array lengths. *)
Ltac in_range :=
  unfold Np.len; rewrite ?length_insert, ?length_zeros; lia.

(** The tangents node by node. *)
Lemma spline_slopes_nodes (x y : list Qc) :
  length x = length y → (2 ≤ length x)%nat →
  let n := length x in
  ∃ m s, calculate_slopes x y = Ok m
       ∧ calculate_spline_slopes x y = Ok s
       ∧ length m = (n - 1)%nat
       ∧ length s = n
       ∧ item s 0 = item m 0
       ∧ item s (n - 1) = item m (n - 2)
       ∧ (n = 2%nat → item s 1 = item m 0)
       ∧ ((3 ≤ n)%nat →
          item s 1 = (item m 0 + item m 1) / 2
          ∧ item s (n - 2) = (item m (n - 3) + item m (n - 2)) / 2)
       ∧ ∀ i, (2 ≤ i)%nat → (i + 3 ≤ n)%nat →
           let w1 := Qcabs (item m (i + 1) - item m i) in
           let w2 := Qcabs (item m (i - 1) - item m (i - 2)) in
           (w1 + w2 = 0 → item s i = (item m (i - 1) + item m i) / 2)
           ∧ (w1 + w2 ≠ 0 →
              item s i = (w1 * item m (i - 1) + w2 * item m i) / (w1 + w2)).
Proof.
  intros Hlen Hn n.
  destruct (calculate_slopes_ok x y Hlen) as (m & Hm & Hlm & _).
  exists m. unfold calculate_spline_slopes, calculate_spline_slopes_with.
  cbn [Np.read Np.write Np.python]. rewrite Hm. simpl.
  fold n in Hlm. unfold Np.len. fold n.
  destruct (Z.ltb_spec (Z.of_nat n) 2); [lia|].
  destruct (Z.eqb_spec (Z.of_nat n) 2) as [E2|E2].
  - (* n = 2 *)
    assert (n = 2%nat) as Hn2 by lia.
    rewrite (getitem_in_range m 0) by in_range. simpl.
    rewrite setitem_in_range by in_range. simpl.
    rewrite setitem_in_range by in_range.
    change (Z.to_nat 0) with 0%nat. change (Z.to_nat 1) with 1%nat.
    eexists. split; [reflexivity|]. split; [reflexivity|].
    split; [assumption|]. split; [in_range|].
    replace (n - 1)%nat with 1%nat by lia.
    replace (n - 2)%nat with 0%nat by lia.
    split; [|split; [|split; [|split]]].
    + rewrite item_insert_ne by lia. apply item_insert_eq. in_range.
    + apply item_insert_eq. in_range.
    + intros _. apply item_insert_eq. in_range.
    + lia.
    + intros i ? ?. lia.
  - (* n >= 3 *)
    assert (3 ≤ n)%nat as Hn3 by lia.
    destruct (Z.ltb_spec 2 (Z.of_nat n)); [|lia].
    rewrite (getitem_in_range m 0) by in_range. simpl.
    rewrite setitem_in_range by in_range. simpl.
    rewrite (getitem_in_range m 1) by in_range. simpl.
    rewrite setitem_in_range by in_range.
    simpl. change (Z.to_nat 0) with 0%nat. change (Z.to_nat 1) with 1%nat.
    set (s1 := <[1%nat := _]> (<[0%nat := _]> (Np.zeros n))).
    assert (Hls1 : length s1 = S (length m)) by (unfold s1; in_range).
    destruct (interior_loop_ok Np.python m (n - 4) python_in_range 2 s1)
      as (s2 & Hrun & Hls2 & Hin & Hout); [lia|lia|assumption|].
    assert (Hrange : Np.range 2 (Z.of_nat n - 2)
                     = Np.range (Z.of_nat 2) (Z.of_nat (2 + (n - 4)))).
    { destruct (decide (n = 3%nat)) as [E3|E3].
      - rewrite !range_nil by lia. reflexivity.
      - f_equal. lia. }
    rewrite Hrange, Hrun. simpl.
    rewrite (getitem_in_range m (Z.of_nat n - 3)) by in_range.
    rewrite (getitem_in_range m (Z.of_nat n - 2)) by in_range.
    simpl.
    rewrite setitem_in_range by in_range. simpl.
    rewrite setitem_in_range by in_range.
    replace (Z.to_nat (Z.of_nat n - 3)) with (n - 3)%nat by lia.
    replace (Z.to_nat (Z.of_nat n - 2)) with (n - 2)%nat by lia.
    replace (Z.to_nat (Z.of_nat n - 1)) with (n - 1)%nat by lia.
    eexists. split; [reflexivity|]. split; [reflexivity|].
    split; [assumption|]. split; [in_range|].
    assert (Hs10 : item s1 0 = item m 0).
    { unfold s1. rewrite item_insert_ne by lia. apply item_insert_eq. in_range. }
    assert (Hs11 : item s1 1 = (item m 0 + item m 1) / 2).
    { unfold s1. apply item_insert_eq. in_range. }
    split; [|split; [|split; [|split]]].
    + rewrite !item_insert_ne by lia. rewrite Hout by lia. exact Hs10.
    + apply item_insert_eq. in_range.
    + lia.
    + intros _. split.
      * rewrite item_insert_ne by lia.
        destruct (decide (n = 3%nat)) as [E3|E3].
        -- replace (n - 2)%nat with 1%nat by lia.
           replace (n - 3)%nat with 0%nat by lia.
           apply item_insert_eq. in_range.
        -- rewrite item_insert_ne by lia. rewrite Hout by lia. exact Hs11.
      * rewrite item_insert_ne by lia. apply item_insert_eq. in_range.
    + intros i Hi2 Hi3. cbv zeta.
      rewrite !item_insert_ne by lia. rewrite Hin by lia.
      unfold akima_weighted. cbv zeta. split; intros Hw.
      * now rewrite decide_True.
      * now rewrite decide_False.
Qed.

(** C1: for [n >= 2] samples [calculate_spline_slopes] returns [n]
    tangents; the first and the last are the first and the last secant;
    for [n = 2] both are [m[0]]; for [n >= 3] the second and the one
    before the last are the mean of their two secants; and every node
    [2 <= i <= n - 3] carries the mean of [m[i-1]] and [m[i]] when
    [w1 + w2 = 0] and their weighted mean otherwise, with
    [w1 = |m[i+1] - m[i]|] and [w2 = |m[i-1] - m[i-2]|]. *)
Theorem calculate_spline_slopes_spec (x y : list Qc) :
  length x = length y → (2 ≤ length x)%nat →
  let n := length x in
  ∃ m s, calculate_slopes x y = Ok m
       ∧ calculate_spline_slopes x y = Ok s
       ∧ length m = (n - 1)%nat
       ∧ length s = n
       ∧ item s 0 = item m 0
       ∧ item s (n - 1) = item m (n - 2)
       ∧ (n = 2%nat → item s 1 = item m 0)
       ∧ ((3 ≤ n)%nat →
          item s 1 = (item m 0 + item m 1) / 2
          ∧ item s (n - 2) = (item m (n - 3) + item m (n - 2)) / 2)
       ∧ ∀ i, (2 ≤ i)%nat → (i + 3 ≤ n)%nat →
           let w1 := Qcabs (item m (i + 1) - item m i) in
           let w2 := Qcabs (item m (i - 1) - item m (i - 2)) in
           (w1 + w2 = 0 → item s i = (item m (i - 1) + item m i) / 2)
           ∧ (w1 + w2 ≠ 0 →
              item s i = (w1 * item m (i - 1) + w2 * item m i) / (w1 + w2)).
Proof. apply spline_slopes_nodes. Qed.

Lemma calculate_spline_slopes_ok (x y : list Qc) :
  length x = length y → (2 ≤ length x)%nat →
  ∃ s, calculate_spline_slopes x y = Ok s ∧ length s = length x.
Proof.
  intros Hlen Hn.
  destruct (spline_slopes_nodes x y Hlen Hn) as (m & s & _ & Hs & _ & Hl & _).
  now exists s.
Qed.

Lemma read_in_range (ix : Np.indexing) (a : list Qc) (i : Z) :
  in_range_access ix → (0 ≤ i < Np.len a)%Z →
  Np.read ix a i = Ok (item a (Z.to_nat i)).
Proof. intros [Hr _]. apply Hr. Qed.

Lemma write_in_range (ix : Np.indexing) (a : list Qc) (i : Z) (v : Qc) :
  in_range_access ix → (0 ≤ i < Np.len a)%Z →
  Np.write ix a i v = Ok (<[Z.to_nat i := v]> a).
Proof. intros [_ Hw]. apply Hw. Qed.

(** One step of [calculate_spline_slopes] whose index is within
    [[0, len)], under either way of indexing. *)
Ltac access_step ix Hix :=
  first [ rewrite (read_in_range ix _ _ Hix) by in_range
        | rewrite (read_in_range Np.python _ _ python_in_range) by in_range
        | rewrite (write_in_range ix _ _ _ Hix) by in_range
        | rewrite (write_in_range Np.python _ _ _ python_in_range) by in_range ];
  cbn [mbind result_bind].

(** [calculate_spline_slopes] makes no access outside [[0, len)]: run
    with accesses that serve those indices only, it returns what it
    returns with Python's. *)
Lemma spline_slopes_access (ix : Np.indexing) (x y : list Qc) :
  in_range_access ix → length x = length y →
  calculate_spline_slopes_with ix x y = calculate_spline_slopes x y.
Proof.
  intros Hix Hlen. unfold calculate_spline_slopes, calculate_spline_slopes_with.
  destruct (Z.ltb_spec (Np.len x) 2) as [Hn|Hn]; [reflexivity|].
  destruct (calculate_slopes_ok x y Hlen) as (m & -> & Hlm & _).
  cbn [mbind result_bind]. unfold Np.len in *.
  set (n := length x) in *.
  destruct (Z.eqb_spec (Z.of_nat n) 2) as [E2|E2].
  - repeat access_step ix Hix. reflexivity.
  - destruct (Z.ltb_spec 2 (Z.of_nat n)); [|lia].
    repeat access_step ix Hix.
    change (Z.to_nat 0) with 0%nat. change (Z.to_nat 1) with 1%nat.
    set (s1 := <[1%nat := _]> (<[0%nat := _]> (Np.zeros n))).
    assert (Hls1 : length s1 = S (length m)) by (unfold s1; in_range).
    assert (Hrange : Np.range 2 (Z.of_nat n - 2)
                     = Np.range (Z.of_nat 2) (Z.of_nat (2 + (n - 4)))).
    { destruct (decide (n = 3%nat)) as [E3|E3].
      - rewrite !range_nil by lia. reflexivity.
      - f_equal. lia. }
    rewrite Hrange.
    rewrite (interior_loop_access ix m (n - 4) Hix 2 s1) by first [lia|assumption].
    destruct (interior_loop_ok Np.python m (n - 4) python_in_range 2 s1)
      as (s2 & -> & Hls2 & _); [lia|lia|assumption|].
    cbn [mbind result_bind].
    repeat access_step ix Hix. reflexivity.
Qed.

Lemma cubic_coefficients_with_ok (ix : Np.indexing) (x y s : list Qc) (i : nat) :
  in_range_access ix →
  (i + 1 < length x)%nat → (i + 1 < length y)%nat → (i + 1 < length s)%nat →
  item x (i + 1) ≠ item x i →
  calculate_cubic_coefficients_with ix x y s (Z.of_nat i)
  = Ok (let h := item x (i + 1) - item x i in
        let m_i := (item y (i + 1) - item y i) / h in
        (item y i, item s i,
         (Num.three * m_i - 2 * item s i - item s (i + 1)) / h,
         (item s i + item s (i + 1) - 2 * m_i) / (h * h))).
Proof.
  intros Hix Hx Hy Hs Hne. unfold calculate_cubic_coefficients_with.
  replace (Z.of_nat i + 1)%Z with (Z.of_nat (i + 1)) by lia.
  rewrite !(read_nat ix) by first [assumption | lia]. simpl.
  assert (E : Num.eqb (item x (i + 1) - item x i) 0 = false).
  { apply eqb_false. now rewrite Qcminus_eq_0. }
  now rewrite E.
Qed.

(** ** Sorting the samples *)

(** The order [np.argsort] sorts by: the key of a (key, index) pair. *)
Definition key_le (p q : Qc * Z) : Prop := p.1 ≤ q.1.

#[local] Instance key_le_trans : Transitive key_le.
Proof. intros p q r. unfold key_le. apply Qcle_trans. Qed.

Lemma insert_key_perm (p : Qc * Z) (l : list (Qc * Z)) :
  Np.insert_key p l ≡ₚ p :: l.
Proof.
  induction l as [|q l IH]; simpl; [reflexivity|].
  destruct (Num.leb p.1 q.1); [reflexivity|].
  rewrite IH. apply Permutation_swap.
Qed.

Lemma sort_keys_perm (l : list (Qc * Z)) : Np.sort_keys l ≡ₚ l.
Proof.
  induction l as [|p l IH]; simpl; [reflexivity|].
  rewrite insert_key_perm. now rewrite IH.
Qed.

Lemma insert_key_sorted (p : Qc * Z) (l : list (Qc * Z)) :
  StronglySorted key_le l → StronglySorted key_le (Np.insert_key p l).
Proof.
  induction 1 as [|q l Hl IH Hq]; simpl.
  - repeat constructor.
  - destruct (Num.leb p.1 q.1) eqn:E.
    + apply leb_true in E. constructor; [now constructor|].
      constructor; [exact E|].
      eapply Forall_impl; [exact Hq|]. intros r Hr. now transitivity q.
    + apply leb_false in E. constructor; [exact IH|].
      rewrite insert_key_perm. constructor; [|exact Hq].
      unfold key_le. now apply Qclt_le_weak.
Qed.

Lemma sort_keys_sorted (l : list (Qc * Z)) :
  StronglySorted key_le (Np.sort_keys l).
Proof.
  induction l as [|p l IH]; simpl; [constructor|].
  now apply insert_key_sorted.
Qed.

Lemma lookup_range (lo hi : Z) (k : nat) :
  (Z.of_nat k < hi - lo)%Z → Np.range lo hi !! k = Some (lo + Z.of_nat k)%Z.
Proof.
  intros Hk. unfold Np.range. rewrite list_lookup_fmap.
  rewrite lookup_seq_lt by lia. reflexivity.
Qed.

Lemma length_range (lo hi : Z) : length (Np.range lo hi) = Z.to_nat (hi - lo).
Proof. unfold Np.range. now rewrite length_map, length_seq. Qed.

Lemma lookup_enumerate (a : list Qc) (k : nat) (p : Qc * Z) :
  Np.enumerate a !! k = Some p ↔ a !! k = Some p.1 ∧ p.2 = Z.of_nat k.
Proof.
  unfold Np.enumerate. rewrite lookup_zip_with. split.
  - intros H. destruct (a !! k) as [u|] eqn:Ha; [|discriminate]. simpl in H.
    assert (Hk : (k < length a)%nat) by (now apply lookup_lt_Some in Ha).
    rewrite lookup_range in H by (unfold Np.len; lia). simpl in H.
    injection H as <-. split; [reflexivity|simpl; lia].
  - intros [Ha Hp]. rewrite Ha. simpl.
    assert (Hk : (k < length a)%nat) by (now apply lookup_lt_Some in Ha).
    rewrite lookup_range by (unfold Np.len; lia). simpl.
    destruct p as [u i]. simpl in *. subst. repeat f_equal; lia.
Qed.

(** A (key, index) pair that names an entry of [a]. *)
Definition names_entry (a : list Qc) (p : Qc * Z) : Prop :=
  (0 ≤ p.2 < Np.len a)%Z ∧ a !! Z.to_nat p.2 = Some p.1.

Lemma enumerate_names (a : list Qc) : Forall (names_entry a) (Np.enumerate a).
Proof.
  apply Forall_lookup. intros k p Hk. apply lookup_enumerate in Hk as [Ha Hp].
  pose proof (lookup_lt_Some _ _ _ Ha). unfold names_entry, Np.len.
  rewrite Hp, Nat2Z.id. split; [lia|exact Ha].
Qed.

Lemma sorted_names (a : list Qc) :
  Forall (names_entry a) (Np.sort_keys (Np.enumerate a)).
Proof. rewrite sort_keys_perm. apply enumerate_names. Qed.

Lemma take_indices_ok (a : list Qc) (idxs : list Z) :
  Forall (fun i => (0 ≤ i < Np.len a)%Z) idxs →
  Np.take_indices a idxs = Ok (map (fun i => item a (Z.to_nat i)) idxs).
Proof.
  induction 1 as [|i idxs Hi _ IH]; simpl; [reflexivity|].
  rewrite getitem_in_range by assumption. simpl. now rewrite IH.
Qed.

Lemma length_sort_keys (l : list (Qc * Z)) :
  length (Np.sort_keys l) = length l.
Proof. apply Permutation_length, sort_keys_perm. Qed.

Lemma length_enumerate (a : list Qc) : length (Np.enumerate a) = length a.
Proof.
  unfold Np.enumerate. rewrite length_zip, length_range. unfold Np.len. lia.
Qed.

(** The samples in ascending order of their abscissas, as pairs. *)
Definition sorted_pairs (x y : list Qc) : list (Qc * Qc) :=
  map (fun p : Qc * Z => (p.1, item y (Z.to_nat p.2)))
    (Np.sort_keys (Np.enumerate x)).

Lemma enumerate_pairs (x y : list Qc) :
  length x = length y →
  map (fun p : Qc * Z => (p.1, item y (Z.to_nat p.2))) (Np.enumerate x)
  = zip x y.
Proof.
  intros Hlen. apply list_eq. intros k.
  rewrite list_lookup_fmap, lookup_zip_with.
  destruct (Np.enumerate x !! k) as [p|] eqn:E.
  - apply lookup_enumerate in E as [Hx Hp]. rewrite Hx. simpl.
    pose proof (lookup_lt_Some _ _ _ Hx) as Hk.
    rewrite (item_lookup y k) by lia. simpl. now rewrite Hp, Nat2Z.id.
  - destruct (x !! k) as [u|] eqn:Hx; [|reflexivity]. exfalso.
    assert (Np.enumerate x !! k = Some (u, Z.of_nat k)) as E'
      by (now apply lookup_enumerate).
    congruence.
Qed.

Lemma sorted_pairs_perm (x y : list Qc) :
  length x = length y → sorted_pairs x y ≡ₚ zip x y.
Proof.
  intros Hlen. unfold sorted_pairs. rewrite <- (enumerate_pairs x y Hlen).
  apply (fmap_Permutation _), sort_keys_perm.
Qed.

Lemma sorted_pairs_fst (x y : list Qc) :
  (sorted_pairs x y).*1 = (Np.sort_keys (Np.enumerate x)).*1.
Proof.
  unfold sorted_pairs. rewrite <- list_fmap_compose. reflexivity.
Qed.

Lemma length_sorted_pairs (x y : list Qc) :
  length (sorted_pairs x y) = length x.
Proof.
  unfold sorted_pairs.
  now rewrite length_map, length_sort_keys, length_enumerate.
Qed.

Lemma sorted_pairs_sorted (x y : list Qc) :
  StronglySorted Qcle (sorted_pairs x y).*1.
Proof.
  rewrite sorted_pairs_fst.
  apply StronglySorted_fmap with (R1 := key_le); [|apply sort_keys_sorted].
  intros p q H. exact H.
Qed.

(** The sort of an entry point succeeds on arrays of one length, and
    returns the two columns of [sorted_pairs]. *)
Lemma sort_samples_ok (x y : list Qc) :
  length x = length y →
  sort_samples x y = Ok ((sorted_pairs x y).*1, (sorted_pairs x y).*2).
Proof.
  intros Hlen. unfold sort_samples, Np.argsort.
  pose proof (sorted_names x) as Hn.
  set (S := Np.sort_keys (Np.enumerate x)) in *.
  rewrite !take_indices_ok.
  - simpl. do 2 f_equal.
    + rewrite sorted_pairs_fst. fold S.
      change (map ?f ?l) with (f <$> l). rewrite <- list_fmap_compose.
      apply Forall_fmap_ext_1.
      eapply Forall_impl; [exact Hn|].
      intros p [_ Hp]. simpl. now apply lookup_item.
    + unfold sorted_pairs. fold S.
      change (map ?f ?l) with (f <$> l). now rewrite <- !list_fmap_compose.
  - apply Forall_fmap. eapply Forall_impl; [exact Hn|].
    intros p [Hp _]. simpl. unfold Np.len in *. lia.
  - apply Forall_fmap. eapply Forall_impl; [exact Hn|].
    intros p [Hp _]. simpl. unfold Np.len in *. lia.
Qed.

(** ** Segment location *)

(** Ascending order, by index. *)
Definition ascending (a : list Qc) : Prop :=
  ∀ i j, (i ≤ j < length a)%nat → item a i ≤ item a j.

Lemma item_cons_0 (u : Qc) (a : list Qc) : item (u :: a) 0 = u.
Proof. reflexivity. Qed.

Lemma item_cons_S (u : Qc) (a : list Qc) (i : nat) :
  item (u :: a) (S i) = item a i.
Proof. reflexivity. Qed.

Lemma item_elem_of (a : list Qc) (i : nat) :
  (i < length a)%nat → item a i ∈ a.
Proof.
  intros Hi. apply list_elem_of_lookup. exists i. now apply item_lookup.
Qed.

Lemma StronglySorted_ascending (a : list Qc) :
  StronglySorted Qcle a → ascending a.
Proof.
  induction 1 as [|u a Ha IH Hu]; intros i j Hij; simpl in Hij; [lia|].
  destruct i as [|i], j as [|j]; try lia.
  - apply Qcle_refl.
  - rewrite item_cons_0, item_cons_S. rewrite Forall_forall in Hu.
    apply Hu, item_elem_of. lia.
  - rewrite !item_cons_S. apply IH. lia.
Qed.

(** The binary search keeps its two invariants: everything left of [lo]
    is below [v], nothing from [hi] on is. *)
Lemma binsearch_left_spec (a : list Qc) (v : Qc) :
  ascending a →
  ∀ fuel lo hi,
    (hi - lo ≤ fuel)%nat → (lo ≤ hi ≤ length a)%nat →
    (∀ i, (i < lo)%nat → item a i < v) →
    (∀ i, (hi ≤ i < length a)%nat → v ≤ item a i) →
    let r := Np.binsearch_left fuel a v lo hi in
    (lo ≤ r ≤ hi)%nat
    ∧ (∀ i, (i < r)%nat → item a i < v)
    ∧ (∀ i, (r ≤ i < length a)%nat → v ≤ item a i).
Proof.
  intros Hasc. induction fuel as [|fuel IH]; intros lo hi Hf Hb Hlo Hhi.
  - simpl. assert (lo = hi) as -> by lia. auto with lia.
  - cbn [Np.binsearch_left]. cbv zeta.
    destruct (Nat.ltb_spec lo hi) as [Hlt|Hge].
    2:{ assert (lo = hi) as -> by lia. auto with lia. }
    set (mid := (lo + (hi - lo) / 2)%nat).
    assert (Hmid : (lo ≤ mid < hi)%nat).
    { unfold mid. pose proof (Nat.Div0.div_lt_upper_bound (hi - lo) 2 (hi - lo)).
      lia. }
    rewrite (item_lookup a mid) by lia.
    destruct (Num.ltb (item a mid) v) eqn:E.
    + apply ltb_true in E.
      destruct (IH (S mid) hi) as (Hr & Hl & Hu); [lia|lia| |assumption|].
      { intros i Hi. eapply Qcle_lt_trans; [|exact E]. apply Hasc. lia. }
      split; [lia|]. split; assumption.
    + apply ltb_false in E.
      destruct (IH lo mid) as (Hr & Hl & Hu); [lia|lia|assumption| |].
      { intros i Hi. eapply Qcle_trans; [exact E|]. apply Hasc. lia. }
      split; [lia|]. split; assumption.
Qed.

(** [np.searchsorted(a, v)] on an ascending array: the number of entries
    below [v]. *)
Lemma searchsorted_spec (a : list Qc) (v : Qc) :
  ascending a →
  ∃ r : nat, Np.searchsorted a v = Z.of_nat r
    ∧ (r ≤ length a)%nat
    ∧ (∀ i, (i < r)%nat → item a i < v)
    ∧ (∀ i, (r ≤ i < length a)%nat → v ≤ item a i).
Proof.
  intros Hasc.
  destruct (binsearch_left_spec a v Hasc (length a) 0 (length a))
    as (Hr & Hl & Hu); [lia|lia|lia|lia|].
  eexists. split; [reflexivity|]. split; [lia|]. split; assumption.
Qed.

(** Inside the range the located segment has the query in its half-open
    interval [(x[idx], x[idx+1]]], and no clamping takes place. *)
Lemma locate_segment_inside (xs : list Qc) (q : Qc) :
  ascending xs →
  item xs 0 < q → q ≤ item xs (length xs - 1) →
  ∃ i : nat, locate_segment xs q = Z.of_nat i
    ∧ Np.searchsorted xs q = Z.of_nat (S i)
    ∧ (i + 2 ≤ length xs)%nat
    ∧ item xs i < q ∧ q ≤ item xs (i + 1).
Proof.
  intros Hasc Hlo Hhi.
  destruct (searchsorted_spec xs q Hasc) as (r & Hr & Hrn & Hl & Hu).
  assert (Hr1 : (1 ≤ r)%nat).
  { destruct r; [|lia]. exfalso.
    destruct (decide (length xs = 0%nat)) as [E|E].
    - rewrite E in Hhi. simpl in Hhi. qc_order.
    - pose proof (Hu 0%nat ltac:(lia)). qc_order. }
  assert (Hr2 : (r < length xs)%nat).
  { destruct (decide (r = length xs)) as [E|E]; [|lia]. exfalso.
    pose proof (Hl (length xs - 1)%nat ltac:(lia)). qc_order. }
  exists (r - 1)%nat. unfold locate_segment, Np.len. rewrite Hr.
  split; [lia|]. split; [f_equal; lia|]. split; [lia|]. split.
  - apply Hl. lia.
  - apply Hu. lia.
Qed.

(** Comparisons of explicit numbers, and explicit lists in ascending
    order. *)
Ltac qc_le := apply leb_true; vm_compute; reflexivity.
Ltac qc_lt := apply ltb_true; vm_compute; reflexivity.
Ltac sorted_concrete :=
  repeat first [ apply SSorted_nil | apply SSorted_cons
               | apply List.Forall_nil | apply List.Forall_cons | qc_le ].

(** C5 as the claim words it fails at a breakpoint: in [x = [0, 1, 2]] the
    query [1] lies strictly inside the range and is located in segment
    [0], whose half-open interval [[x[0], x[1])] does not hold it. *)
Lemma locate_segment_breakpoint_counterexample :
  let x := [Q2Qc 0; Q2Qc 1; Q2Qc 2] in
  let q := Q2Qc 1 in
  StronglySorted Qcle x
  ∧ (item x 0 < q ∧ q < item x 2)
  ∧ locate_segment x q = 0%Z
  ∧ ¬ (item x 0 ≤ q ∧ q < item x 1).
Proof.
  cbv zeta. split; [|split; [|split]].
  - sorted_concrete.
  - split; qc_lt.
  - vm_compute. reflexivity.
  - intros [_ H]. apply ltb_true in H. vm_compute in H. discriminate.
Qed.

(** C5, amended: for an ascending [x] and a query strictly inside its
    range, the located index [i] lies in [[0, n - 2]], satisfies
    [x[i] < q <= x[i+1]], is the only index of a segment that does, and
    is [k - 1] when [q] is a breakpoint [x[k]] above its left neighbour. *)
Theorem locate_segment_spec (x : list Qc) (q : Qc) :
  StronglySorted Qcle x →
  item x 0 < q → q < item x (length x - 1) →
  ∃ i : nat, locate_segment x q = Z.of_nat i
    ∧ (i + 2 ≤ length x)%nat
    ∧ (item x i < q ∧ q ≤ item x (i + 1))
    ∧ (∀ j, (j + 2 ≤ length x)%nat →
            item x j < q → q ≤ item x (j + 1) → j = i)
    ∧ (∀ k, (1 ≤ k)%nat → (k < length x)%nat →
            q = item x k → item x (k - 1) < item x k → i = (k - 1)%nat).
Proof.
  intros Hsorted Hlo Hhi.
  pose proof (StronglySorted_ascending x Hsorted) as Hasc.
  destruct (locate_segment_inside x q Hasc Hlo) as (i & Hi & _ & Hn & Hl & Hu).
  { now apply Qclt_le_weak. }
  assert (Huniq : ∀ j, (j + 2 ≤ length x)%nat →
                       item x j < q → q ≤ item x (j + 1) → j = i).
  { intros j Hj Hjl Hju.
    destruct (Nat.lt_trichotomy j i) as [Hlt|[Heq|Hgt]]; [|assumption|]; exfalso.
    - pose proof (Hasc (j + 1)%nat i ltac:(lia)). qc_order.
    - pose proof (Hasc (i + 1)%nat j ltac:(lia)). qc_order. }
  exists i. split; [assumption|]. split; [assumption|].
  split; [now split|]. split; [exact Huniq|].
  intros k Hk1 Hkn -> Hstep. symmetry. apply Huniq.
  - lia.
  - assumption.
  - replace (k - 1 + 1)%nat with k by lia. apply Qcle_refl.
Qed.

(** ** The out-of-range branches *)

(** What the branch below the range returns. *)
Definition below_value (xs ys : list Qc) (q : Qc) : branch * Qc :=
  let dx := item xs 1 - item xs 0 in
  if decide (dx = 0) then (BelowCoincident, item ys 0)
  else (BelowLine, item ys 0 + (item ys 1 - item ys 0) / dx * (q - item xs 0)).

(** What the branch above the range returns. *)
Definition above_value (xs ys : list Qc) (q : Qc) : branch * Qc :=
  let n := length xs in
  let dx := item xs (n - 1) - item xs (n - 2) in
  if decide (dx = 0) then (AboveCoincident, item ys (n - 1))
  else (AboveLine,
        item ys (n - 1)
        + (item ys (n - 1) - item ys (n - 2)) / dx * (q - item xs (n - 1))).

Section Extrapolate.
Variables xs ys : list Qc.
Variable q : Qc.
Hypothesis Hlen : length xs = length ys.
Hypothesis Hn : (2 ≤ length xs)%nat.

Lemma getitem_last (a : list Qc) :
  length a = length xs → a.[-1] = Ok (item a (length xs - 1)).
Proof.
  intros Ha. rewrite getitem_negative by (unfold Np.len; lia).
  do 2 f_equal. unfold Np.len. lia.
Qed.

Lemma getitem_before_last (a : list Qc) :
  length a = length xs → a.[-2] = Ok (item a (length xs - 2)).
Proof.
  intros Ha. rewrite getitem_negative by (unfold Np.len; lia).
  do 2 f_equal. unfold Np.len. lia.
Qed.

Lemma getitem_first (a : list Qc) :
  length a = length xs → a.[0] = Ok (item a 0).
Proof. intros Ha. now rewrite getitem_in_range by (unfold Np.len; lia). Qed.

Lemma getitem_second (a : list Qc) :
  length a = length xs → a.[1] = Ok (item a 1).
Proof. intros Ha. now rewrite getitem_in_range by (unfold Np.len; lia). Qed.

Lemma len_gt_1 : (1 <? Np.len xs)%Z = true.
Proof. apply Z.ltb_lt. unfold Np.len. lia. Qed.

Lemma extrapolate_below :
  q ≤ item xs 0 → extrapolate xs ys q = Ok (Some (below_value xs ys q)).
Proof.
  intros Hq. unfold extrapolate, below_value.
  rewrite !(getitem_first xs), !(getitem_second xs) by reflexivity.
  rewrite !(getitem_first ys), !(getitem_second ys) by (symmetry; exact Hlen).
  simpl. apply leb_true in Hq. rewrite Hq, len_gt_1.
  destruct (Num.eqb _ 0) eqn:E.
  - apply eqb_true in E. now rewrite decide_True.
  - apply eqb_false in E. now rewrite decide_False.
Qed.

Lemma extrapolate_above :
  item xs 0 < q → item xs (length xs - 1) ≤ q →
  extrapolate xs ys q = Ok (Some (above_value xs ys q)).
Proof.
  intros Hlo Hhi. unfold extrapolate, above_value.
  rewrite !(getitem_first xs), !(getitem_last xs), !(getitem_before_last xs)
    by reflexivity.
  rewrite !(getitem_last ys), !(getitem_before_last ys)
    by (symmetry; exact Hlen).
  simpl. apply leb_false in Hlo. apply geb_true in Hhi.
  rewrite Hlo, Hhi, len_gt_1.
  destruct (Num.eqb _ 0) eqn:E.
  - apply eqb_true in E. now rewrite decide_True.
  - apply eqb_false in E. now rewrite decide_False.
Qed.

Lemma extrapolate_inside :
  item xs 0 < q → q < item xs (length xs - 1) →
  extrapolate xs ys q = Ok None.
Proof.
  intros Hlo Hhi. unfold extrapolate.
  rewrite !(getitem_first xs), !(getitem_last xs) by reflexivity.
  simpl. apply leb_false in Hlo. apply geb_false in Hhi.
  now rewrite Hlo, Hhi.
Qed.
End Extrapolate.

(** ** [calculate_cubic_coefficients] *)

(** The coefficients of segment [i], from its end points and tangents. *)
Definition hermite_coefficients (x y s : list Qc) (i : nat)
  : Qc * Qc * Qc * Qc :=
  let h := item x (i + 1) - item x i in
  let m_i := (item y (i + 1) - item y i) / h in
  (item y i, item s i,
   (Num.three * m_i - 2 * item s i - item s (i + 1)) / h,
   (item s i + item s (i + 1) - 2 * m_i) / (h * h)).

Lemma cubic_coefficients_ok (x y s : list Qc) (i : nat) :
  (i + 1 < length x)%nat → (i + 1 < length y)%nat → (i + 1 < length s)%nat →
  item x (i + 1) ≠ item x i →
  calculate_cubic_coefficients x y s (Z.of_nat i)
  = Ok (hermite_coefficients x y s i).
Proof.
  intros Hx Hy Hs Hne.
  unfold calculate_cubic_coefficients, calculate_cubic_coefficients_with.
  cbn [Np.read Np.write Np.python].
  replace (Z.of_nat i + 1)%Z with (Z.of_nat (i + 1)) by lia.
  rewrite !getitem_nat by lia. simpl.
  assert (E : Num.eqb (item x (i + 1) - item x i) 0 = false).
  { apply eqb_false. now rewrite Qcminus_eq_0. }
  now rewrite E.
Qed.

Lemma cubic_coefficients_degenerate (x y s : list Qc) (i : nat) :
  (i + 1 < length x)%nat → (i + 1 < length y)%nat → (i + 1 < length s)%nat →
  item x (i + 1) = item x i →
  calculate_cubic_coefficients x y s (Z.of_nat i) = Raise DegenerateInputError.
Proof.
  intros Hx Hy Hs He.
  unfold calculate_cubic_coefficients, calculate_cubic_coefficients_with.
  cbn [Np.read Np.write Np.python].
  replace (Z.of_nat i + 1)%Z with (Z.of_nat (i + 1)) by lia.
  rewrite !getitem_nat by lia. simpl.
  assert (E : Num.eqb (item x (i + 1) - item x i) 0 = true).
  { apply eqb_true. now rewrite Qcminus_eq_0. }
  now rewrite E.
Qed.

(** The derivative of [cubic coef] at [dx]. *)
Definition cubic_deriv (coef : Qc * Qc * Qc * Qc) (dx : Qc) : Qc :=
  let '(_, b, c, d) := coef in
  b + 2 * c * dx + Num.three * d * dx * dx.

(** [cubic_deriv] is the coefficient of the first-order term of the
    expansion of [cubic] around [t]. *)
Lemma cubic_deriv_expansion (coef : Qc * Qc * Qc * Qc) (t e : Qc) :
  let '(_, _, c, d) := coef in
  cubic coef (t + e)
  = cubic coef t + cubic_deriv coef t * e
    + (c + Num.three * d * t) * e * e + d * e * e * e.
Proof.
  destruct coef as [[[a b] c] d]. unfold cubic, cubic_deriv, Num.three. ring.
Qed.

Lemma hermite_conditions (x y s : list Qc) (i : nat) :
  item x (i + 1) ≠ item x i →
  let coef := hermite_coefficients x y s i in
  let h := item x (i + 1) - item x i in
  cubic coef 0 = item y i
  ∧ cubic coef h = item y (i + 1)
  ∧ cubic_deriv coef 0 = item s i
  ∧ cubic_deriv coef h = item s (i + 1).
Proof.
  intros Hne. cbv zeta.
  assert (Hh : item x (i + 1) - item x i ≠ 0) by (now rewrite Qcminus_eq_0).
  unfold hermite_coefficients, cubic, cubic_deriv, Num.three.
  set (h := item x (i + 1) - item x i) in *.
  repeat split.
  - ring.
  - field. exact Hh.
  - ring.
  - field. exact Hh.
Qed.

(** ** The entry points on sorted samples *)

Section InterpolateSorted.
Variables xs ys : list Qc.
Variable q : Qc.
Hypothesis Hlen : length xs = length ys.
Hypothesis Hn : (2 ≤ length xs)%nat.

Lemma interpolate_sorted_below :
  q ≤ item xs 0 → interpolate_sorted xs ys q = Ok (below_value xs ys q).
Proof.
  intros Hq. unfold interpolate_sorted.
  rewrite extrapolate_below; [reflexivity|assumption..].
Qed.

Lemma interpolate_sorted_above :
  item xs 0 < q → item xs (length xs - 1) ≤ q →
  interpolate_sorted xs ys q = Ok (above_value xs ys q).
Proof.
  intros Hlo Hhi. unfold interpolate_sorted.
  rewrite extrapolate_above; [reflexivity|assumption..].
Qed.

Lemma interpolate_sorted_inside :
  ascending xs →
  item xs 0 < q → q < item xs (length xs - 1) →
  ∃ (i : nat) (s : list Qc),
    locate_segment xs q = Z.of_nat i
    ∧ (i + 2 ≤ length xs)%nat
    ∧ (item xs i < q ∧ q ≤ item xs (i + 1))
    ∧ calculate_spline_slopes xs ys = Ok s
    ∧ length s = length xs
    ∧ interpolate_sorted xs ys q
      = Ok (Segment (Z.of_nat i),
            cubic (hermite_coefficients xs ys s i) (q - item xs i)).
Proof.
  intros Hasc Hlo Hhi.
  destruct (locate_segment_inside xs q Hasc Hlo) as (i & Hi & _ & Hin & Hl & Hu).
  { now apply Qclt_le_weak. }
  destruct (calculate_spline_slopes_ok xs ys Hlen Hn) as (s & Hs & Hls).
  exists i, s. split; [assumption|]. split; [assumption|].
  split; [now split|]. split; [assumption|]. split; [assumption|].
  unfold interpolate_sorted.
  rewrite extrapolate_inside; [|assumption..]. simpl.
  rewrite Hs. simpl. unfold evaluate_segment, evaluate_segment_with.
  cbn [Np.read Np.write Np.python]. rewrite Hi.
  fold (calculate_cubic_coefficients xs ys s (Z.of_nat i)).
  rewrite cubic_coefficients_ok by first [lia | intros E; rewrite E in Hu; qc_order].
  simpl. rewrite getitem_nat by lia. reflexivity.
Qed.
End InterpolateSorted.

Lemma length_sorted_fst (x y : list Qc) :
  length (sorted_pairs x y).*1 = length x.
Proof. now rewrite length_fmap, length_sorted_pairs. Qed.

Lemma length_sorted_snd (x y : list Qc) :
  length (sorted_pairs x y).*2 = length x.
Proof. now rewrite length_fmap, length_sorted_pairs. Qed.

Lemma sorted_fst_ascending (x y : list Qc) : ascending (sorted_pairs x y).*1.
Proof. apply StronglySorted_ascending, sorted_pairs_sorted. Qed.

Lemma npoints_traced_sorted (x y : list Qc) (q : Qc) :
  length x = length y → (2 ≤ length x)%nat →
  akima_interpolate_npoints_traced x y q
  = interpolate_sorted (sorted_pairs x y).*1 (sorted_pairs x y).*2 q.
Proof.
  intros Hlen Hn. unfold akima_interpolate_npoints_traced.
  rewrite bool_decide_false by (intros H; apply H; exact Hlen).
  destruct (Z.ltb_spec (Np.len x) 2) as [H|H]; [unfold Np.len in H; lia|].
  now rewrite (sort_samples_ok x y Hlen).
Qed.

Lemma npoints_validation (x y : list Qc) (q : Qc) :
  (length x ≠ length y →
   akima_interpolate_npoints x y q = Raise LengthMismatchError)
  ∧ (length x = length y → (length x < 2)%nat →
     akima_interpolate_npoints x y q = Raise InsufficientPointsError).
Proof.
  unfold akima_interpolate_npoints, akima_interpolate_npoints_traced. split.
  - intros Hne. now rewrite bool_decide_true.
  - intros Heq Hn. rewrite bool_decide_false by (intros H; apply H; exact Heq).
    destruct (Z.ltb_spec (Np.len x) 2) as [H|H]; [reflexivity|].
    unfold Np.len in H. lia.
Qed.

(** ** Interpolation at the samples *)

(** Strictly ascending order, by index. *)
Definition strictly_ascending (a : list Qc) : Prop :=
  ∀ i j, (i < j < length a)%nat → item a i < item a j.

Lemma ascending_NoDup_strict (a : list Qc) :
  ascending a → NoDup a → strictly_ascending a.
Proof.
  intros Hasc Hnd i j Hij.
  destruct (decide (item a i = item a j)) as [E|E].
  - exfalso. assert (i = j); [|lia].
    apply (NoDup_lookup a i j (item a i)); [assumption| |].
    + apply item_lookup. lia.
    + rewrite E. apply item_lookup. lia.
  - pose proof (Hasc i j ltac:(lia)) as Hle.
    destruct (Qcle_lt_or_eq _ _ Hle); [assumption|contradiction].
Qed.

Lemma sorted_fst_perm (x y : list Qc) :
  length x = length y → (sorted_pairs x y).*1 ≡ₚ x.
Proof.
  intros Hlen. rewrite (sorted_pairs_perm x y Hlen). rewrite fst_zip; [reflexivity|lia].
Qed.

Lemma sorted_fst_strict (x y : list Qc) :
  length x = length y → NoDup x → strictly_ascending (sorted_pairs x y).*1.
Proof.
  intros Hlen Hnd. apply ascending_NoDup_strict.
  - apply sorted_fst_ascending.
  - now rewrite (sorted_fst_perm x y Hlen).
Qed.

Lemma item_fst_lookup (l : list (Qc * Qc)) (j : nat) (p : Qc * Qc) :
  l !! j = Some p → item l.*1 j = p.1 ∧ item l.*2 j = p.2.
Proof.
  intros H. split; apply lookup_item; rewrite list_lookup_fmap, H; reflexivity.
Qed.

(** Every sample sits at some position of the sorted samples. *)
Lemma sample_position (x y : list Qc) (k : nat) :
  length x = length y → (k < length x)%nat →
  ∃ j, (j < length x)%nat
       ∧ item (sorted_pairs x y).*1 j = item x k
       ∧ item (sorted_pairs x y).*2 j = item y k.
Proof.
  intros Hlen Hk.
  assert (Hin : (item x k, item y k) ∈ sorted_pairs x y).
  { rewrite (sorted_pairs_perm x y Hlen). apply list_elem_of_lookup. exists k.
    rewrite lookup_zip_with, (item_lookup x k), (item_lookup y k) by lia.
    reflexivity. }
  apply list_elem_of_lookup in Hin as [j Hj]. exists j.
  pose proof (lookup_lt_Some _ _ _ Hj) as Hjl.
  rewrite length_sorted_pairs in Hjl.
  destruct (item_fst_lookup _ _ _ Hj) as [H1 H2]. auto.
Qed.

Lemma sample_on_sorted (xs ys : list Qc) (j : nat) :
  length xs = length ys → (2 ≤ length xs)%nat → (j < length xs)%nat →
  strictly_ascending xs → ascending xs →
  snd <$> interpolate_sorted xs ys (item xs j) = Ok (item ys j).
Proof.
  intros Hlen Hn Hj Hstrict Hasc.
  destruct (decide (j = 0%nat)) as [->|Hj0].
  { (* the first sample: the branch below the range *)
    rewrite interpolate_sorted_below by first [assumption | apply Qcle_refl].
    unfold below_value.
    pose proof (Hstrict 0%nat 1%nat ltac:(lia)) as H01.
    rewrite decide_False by (rewrite Qcminus_eq_0; intros E; rewrite E in H01; qc_order).
    simpl. f_equal. replace (item xs 0 - item xs 0) with 0 by ring.
    now rewrite Qcmult_0_r, Qcplus_0_r. }
  pose proof (Hstrict 0%nat j ltac:(lia)) as H0j.
  destruct (decide (j = length xs - 1)%nat) as [Hjl|Hjl].
  { (* the last sample: the branch above the range *)
    rewrite interpolate_sorted_above
      by first [assumption | rewrite <- Hjl; apply Qcle_refl].
    unfold above_value. rewrite <- Hjl.
    pose proof (Hstrict (length xs - 2)%nat j ltac:(lia)) as Hp.
    rewrite decide_False by (rewrite Qcminus_eq_0; intros E; rewrite E in Hp; qc_order).
    simpl. f_equal. replace (item xs j - item xs j) with 0 by ring.
    now rewrite Qcmult_0_r, Qcplus_0_r. }
  (* an interior sample: the right end of the segment before it *)
  pose proof (Hstrict j (length xs - 1)%nat ltac:(lia)) as Hjn.
  destruct (interpolate_sorted_inside xs ys (item xs j) Hlen Hn Hasc H0j Hjn)
    as (i & s & _ & Hi & [Hl Hu] & _ & Hls & ->).
  assert (j = (i + 1)%nat) as ->.
  { destruct (Nat.lt_trichotomy j (i + 1)) as [Hlt|[Heq|Hgt]]; [|assumption|]; exfalso.
    - pose proof (Hasc j i ltac:(lia)). qc_order.
    - pose proof (Hstrict (i + 1)%nat j ltac:(lia)). qc_order. }
  simpl. f_equal.
  apply (hermite_conditions xs ys s i).
  intros E. rewrite E in Hl. qc_order.
Qed.

Lemma npoints_at_sample (x y : list Qc) (k : nat) :
  NoDup x → length x = length y → (2 ≤ length x)%nat → (k < length x)%nat →
  akima_interpolate_npoints x y (item x k) = Ok (item y k).
Proof.
  intros Hnd Hlen Hn Hk. unfold akima_interpolate_npoints.
  rewrite npoints_traced_sorted by assumption.
  destruct (sample_position x y k Hlen Hk) as (j & Hj & <- & <-).
  apply sample_on_sorted.
  - now rewrite length_sorted_fst, length_sorted_snd.
  - now rewrite length_sorted_fst.
  - now rewrite length_sorted_fst.
  - now apply sorted_fst_strict.
  - apply sorted_fst_ascending.
Qed.

(** C2: where [x[i+1] != x[i]], the coefficients of segment [i] give a
    cubic [P] in [x - x[i]] with [P(x[i]) = y[i]], [P(x[i+1]) = y[i+1]],
    [P'(x[i]) = s[i]] and [P'(x[i+1]) = s[i+1]]; and on samples with
    pairwise distinct abscissas the interpolation at the abscissa of a
    sample returns its ordinate. *)
Theorem hermite_interpolation :
  (∀ (x y s : list Qc) (i : nat),
     (i + 1 < length x)%nat → (i + 1 < length y)%nat →
     (i + 1 < length s)%nat →
     item x (i + 1) ≠ item x i →
     ∃ coef, calculate_cubic_coefficients x y s (Z.of_nat i) = Ok coef
       ∧ let P t := cubic coef (t - item x i) in
         let P' t := cubic_deriv coef (t - item x i) in
         P (item x i) = item y i
         ∧ P (item x (i + 1)) = item y (i + 1)
         ∧ P' (item x i) = item s i
         ∧ P' (item x (i + 1)) = item s (i + 1))
  ∧ (∀ (x y : list Qc) (k : nat),
       NoDup x → length x = length y → (2 ≤ length x)%nat →
       (k < length x)%nat →
       akima_interpolate_npoints x y (item x k) = Ok (item y k)).
Proof.
  split.
  - intros x y s i Hx Hy Hs Hne. eexists. split.
    + now apply cubic_coefficients_ok.
    + cbv beta zeta. replace (item x i - item x i) with 0 by ring.
      exact (hermite_conditions x y s i Hne).
  - apply npoints_at_sample.
Qed.

(** ** Evaluation at explicit inputs *)

(** Equality of two outcomes, decided by computation. *)
Definition result_eqb (r1 r2 : result Qc) : bool :=
  match r1, r2 with
  | Ok a, Ok b => Num.eqb a b
  | Raise e1, Raise e2 => bool_decide (e1 = e2)
  | _, _ => false
  end.

Lemma result_eqb_eq (r1 r2 : result Qc) : result_eqb r1 r2 = true → r1 = r2.
Proof.
  destruct r1 as [a|e1], r2 as [b|e2]; simpl; try discriminate.
  - intros H. apply eqb_true in H. now subst.
  - intros H. apply bool_decide_eq_true in H. now subst.
Qed.

Fixpoint array_eqb (a b : list Qc) : bool :=
  match a, b with
  | [], [] => true
  | u :: a', v :: b' => Num.eqb u v && array_eqb a' b'
  | _, _ => false
  end.

Lemma array_eqb_eq (a b : list Qc) : array_eqb a b = true → a = b.
Proof.
  revert b. induction a as [|u a IH]; intros [|v b]; simpl; try discriminate.
  - reflexivity.
  - intros H. apply andb_prop in H as [H1 H2]. apply eqb_true in H1.
    f_equal; [assumption|now apply IH].
Qed.

Ltac by_evaluation := apply result_eqb_eq; vm_compute; reflexivity.

(** The number [z]. *)
Definition num (z : Z) : Qc := Q2Qc (inject_Z z).

(** ** Extrapolation outside the range *)

(** Outside the range the N-point entry point returns the value of the
    straight line through the two nearest samples, or the nearest
    ordinate when their abscissas coincide. *)
Lemma npoints_extrapolation (x y : list Qc) (q : Qc) :
  length x = length y → (2 ≤ length x)%nat →
  let xs := (sorted_pairs x y).*1 in
  let ys := (sorted_pairs x y).*2 in
  let n := length x in
  (q < item xs 0 →
   akima_interpolate_npoints x y q
   = Ok (if decide (item xs 1 = item xs 0) then item ys 0
         else item ys 0
              + (item ys 1 - item ys 0) / (item xs 1 - item xs 0)
                * (q - item xs 0)))
  ∧ (item xs (n - 1) < q →
     akima_interpolate_npoints x y q
     = Ok (if decide (item xs (n - 1) = item xs (n - 2)) then item ys (n - 1)
           else item ys (n - 1)
                + (item ys (n - 1) - item ys (n - 2))
                  / (item xs (n - 1) - item xs (n - 2))
                  * (q - item xs (n - 1)))).
Proof.
  intros Hlen Hn xs ys n.
  assert (Hlxs : length xs = n) by apply length_sorted_fst.
  assert (Hlys : length ys = n) by apply length_sorted_snd.
  assert (Hasc : ascending xs) by apply sorted_fst_ascending.
  unfold akima_interpolate_npoints.
  rewrite npoints_traced_sorted by assumption. fold xs ys. split.
  - intros Hq. rewrite interpolate_sorted_below
      by first [congruence | lia | now apply Qclt_le_weak].
    unfold below_value.
    destruct (decide (item xs 1 - item xs 0 = 0)) as [E|E];
      rewrite Qcminus_eq_0 in E.
    + now rewrite decide_True.
    + now rewrite decide_False.
  - intros Hq.
    assert (H0 : item xs 0 < q).
    { pose proof (Hasc 0%nat (n - 1)%nat ltac:(lia)). qc_order. }
    rewrite interpolate_sorted_above
      by first [congruence | lia | rewrite Hlxs; now apply Qclt_le_weak].
    unfold above_value. rewrite Hlxs.
    destruct (decide (item xs (n - 1) - item xs (n - 2) = 0)) as [E|E];
      rewrite Qcminus_eq_0 in E.
    + now rewrite decide_True.
    + now rewrite decide_False.
Qed.

(** C3, at the input [x = [1, 1]], [y = [5, 7]], query [0]: the copy of
    [akima_interpolate_npoints] under [Homework/] divides by
    [x_sorted[1] - x_sorted[0] = 0] and returns [-inf], where the claim
    and the current module return the boundary ordinate [5]. *)
Theorem homework_extrapolation_coincident :
  Homework.akima_interpolate_npoints [num 1; num 1] [num 5; num 7] (num 0)
  = Ok Num.NInf
  ∧ akima_interpolate_npoints [num 1; num 1] [num 5; num 7] (num 0)
    = Ok (num 5).
Proof.
  split.
  - vm_compute. reflexivity.
  - by_evaluation.
Qed.

(** ** Every query gets a value *)

(** The branch an entry point takes on at least two samples: never one of
    the single-sample returns, and a segment index within [[0, n - 2]]. *)
Definition branch_in_bounds (n : nat) (b : branch) : Prop :=
  match b with
  | BelowSingle | AboveSingle => False
  | Segment idx => (0 ≤ idx ≤ Z.of_nat n - 2)%Z
  | _ => True
  end.

Lemma interpolate_sorted_total (xs ys : list Qc) (q : Qc) :
  length xs = length ys → (2 ≤ length xs)%nat → ascending xs →
  ∃ b v, interpolate_sorted xs ys q = Ok (b, v)
         ∧ branch_in_bounds (length xs) b.
Proof.
  intros Hlen Hn Hasc.
  destruct (Qclt_le_dec (item xs 0) q) as [Hlo|Hlo].
  - destruct (Qclt_le_dec q (item xs (length xs - 1))) as [Hhi|Hhi].
    + destruct (interpolate_sorted_inside xs ys q Hlen Hn Hasc Hlo Hhi)
        as (i & s & _ & Hi & _ & _ & _ & ->).
      eexists _, _. split; [reflexivity|]. simpl. lia.
    + rewrite interpolate_sorted_above by assumption.
      unfold above_value. case_decide; eexists _, _; split; try reflexivity; exact I.
  - rewrite interpolate_sorted_below by assumption.
    unfold below_value. case_decide; eexists _, _; split; try reflexivity; exact I.
Qed.

Lemma npoints_total (x y : list Qc) (q : Qc) :
  length x = length y → (2 ≤ length x)%nat →
  ∃ b v, akima_interpolate_npoints_traced x y q = Ok (b, v)
         ∧ akima_interpolate_npoints x y q = Ok v
         ∧ branch_in_bounds (length x) b.
Proof.
  intros Hlen Hn. unfold akima_interpolate_npoints.
  rewrite npoints_traced_sorted by assumption.
  destruct (interpolate_sorted_total (sorted_pairs x y).*1
              (sorted_pairs x y).*2 q) as (b & v & Hr & Hb).
  - now rewrite length_sorted_fst, length_sorted_snd.
  - now rewrite length_sorted_fst.
  - apply sorted_fst_ascending.
  - exists b, v. rewrite Hr. rewrite length_sorted_fst in Hb. auto.
Qed.

(** C4 as the claim words it fails: on [x = [1, 1]], [y = [5, 7]] the
    query [0] gets the value [5], not an exception. *)
Lemma duplicate_abscissa_counterexample :
  akima_interpolate_npoints [num 1; num 1] [num 5; num 7] (num 0)
  = Ok (num 5).
Proof. by_evaluation. Qed.

Lemma sorted_pair_of_ones :
  (sorted_pairs [num 1; num 1] [num 5; num 7]).*1 = [num 1; num 1]
  ∧ (sorted_pairs [num 1; num 1] [num 5; num 7]).*2 = [num 5; num 7].
Proof. split; apply array_eqb_eq; vm_compute; reflexivity. Qed.

(** C4, amended: on [x = [1, 1]], [y = [5, 7]] a query [q <= 1] gets [5]
    and a query [q > 1] gets [7]; the N-point entry point returns a value
    for every query on every dataset of at least two samples, with or
    without repeated abscissas; [DegenerateInputError] is what
    [calculate_cubic_coefficients] raises on a segment of zero width. *)
Theorem duplicate_abscissa_spec :
  (∀ q : Qc,
     (q ≤ num 1 →
      akima_interpolate_npoints [num 1; num 1] [num 5; num 7] q = Ok (num 5))
     ∧ (num 1 < q →
        akima_interpolate_npoints [num 1; num 1] [num 5; num 7] q
        = Ok (num 7)))
  ∧ (∀ (x y : list Qc) (q : Qc),
       length x = length y → (2 ≤ length x)%nat →
       ∃ v, akima_interpolate_npoints x y q = Ok v)
  ∧ (∀ (x y s : list Qc) (i : nat),
       (i + 1 < length x)%nat → (i + 1 < length y)%nat →
       (i + 1 < length s)%nat →
       item x (i + 1) = item x i →
       calculate_cubic_coefficients x y s (Z.of_nat i)
       = Raise DegenerateInputError).
Proof.
  split; [|split].
  - intros q. unfold akima_interpolate_npoints.
    rewrite npoints_traced_sorted by (simpl; lia).
    destruct sorted_pair_of_ones as [-> ->]. split; intros Hq.
    + rewrite interpolate_sorted_below by first [exact Hq | simpl; lia].
      unfold below_value. rewrite decide_True; [reflexivity|].
      now apply Qcminus_eq_0.
    + rewrite interpolate_sorted_above
        by first [exact Hq | simpl; lia | now apply Qclt_le_weak].
      unfold above_value. rewrite decide_True; [reflexivity|].
      now apply Qcminus_eq_0.
  - intros x y q Hlen Hn.
    destruct (npoints_total x y q Hlen Hn) as (b & v & _ & Hv & _).
    now exists v.
  - apply cubic_coefficients_degenerate.
Qed.

(** ** Array accesses stay in bounds *)

Lemma strict_refuses (a : list Qc) (i : Z) (v : Qc) :
  (i < 0 ∨ Np.len a ≤ i)%Z →
  Np.read Np.strict a i = Raise IndexError
  ∧ Np.write Np.strict a i v = Raise IndexError.
Proof.
  intros Hi. simpl. unfold Np.getitem_strict, Np.setitem_strict.
  assert (E : Np.strict_index a i = None).
  { unfold Np.strict_index, Np.len in *.
    destruct (Z.leb_spec 0 i); [|reflexivity].
    destruct (Z.ltb_spec i (Z.of_nat (length a))); [lia|reflexivity]. }
  now rewrite E.
Qed.

(** C10: on arrays of one length [n >= 2] the sort succeeds.  For a query
    strictly inside the sorted range the clamped index [idx] satisfies
    [0 <= idx] and [idx + 1 < n]; and [calculate_spline_slopes], every
    node of its interior loop, [calculate_cubic_coefficients] and the
    evaluation of the cubic, run with [Np.strict] (the accesses that
    raise [IndexError] on every index outside [[0, len)], negative ones
    included), return what the program returns: a value, so that no
    access of theirs leaves [[0, len)]; every node [i] of the loop has
    [0 <= i - 2] and [i + 1 <= n - 2], the last position of the secants.
    For no query is a single-sample return taken. *)
Theorem indexing_in_bounds (x y : list Qc) (q : Qc) :
  length x = length y → (2 ≤ length x)%nat →
  let n := length x in
  let xs := (sorted_pairs x y).*1 in
  let ys := (sorted_pairs x y).*2 in
  sort_samples x y = Ok (xs, ys)
  ∧ (∀ (a : list Qc) (i : Z) (v : Qc),
       (i < 0 ∨ Np.len a ≤ i)%Z →
       Np.read Np.strict a i = Raise IndexError
       ∧ Np.write Np.strict a i v = Raise IndexError)
  ∧ (item xs 0 < q → q < item xs (n - 1) →
     ∃ (idx : nat) (m s : list Qc) (v : Qc),
       locate_segment xs q = Z.of_nat idx
       ∧ (idx + 1 < n)%nat
       ∧ calculate_slopes xs ys = Ok m ∧ length m = (n - 1)%nat
       ∧ calculate_spline_slopes xs ys = Ok s ∧ length s = n
       ∧ calculate_spline_slopes_with Np.strict xs ys = Ok s
       ∧ (∀ (i : Z) (s0 : list Qc),
            i ∈ Np.range 2 (Np.len xs - 2) → length s0 = n →
            (0 ≤ i - 2)%Z ∧ (i + 1 ≤ Np.len m - 1)%Z
            ∧ akima_node_with Np.strict m i s0 = akima_node m i s0
            ∧ ∃ s1, akima_node m i s0 = Ok s1)
       ∧ (∃ coef,
            calculate_cubic_coefficients_with Np.strict xs ys s (Z.of_nat idx)
            = Ok coef
            ∧ calculate_cubic_coefficients xs ys s (Z.of_nat idx) = Ok coef)
       ∧ evaluate_segment_with Np.strict xs ys s q
         = Ok (Segment (Z.of_nat idx), v)
       ∧ akima_interpolate_npoints_traced x y q
         = Ok (Segment (Z.of_nat idx), v))
  ∧ (∀ q' : Qc,
       ∃ b v, akima_interpolate_npoints_traced x y q' = Ok (b, v)
              ∧ b ≠ BelowSingle ∧ b ≠ AboveSingle).
Proof.
  intros Hlen Hn n xs ys.
  assert (Hlxs : length xs = n) by apply length_sorted_fst.
  assert (Hlys : length ys = n) by apply length_sorted_snd.
  split; [now apply sort_samples_ok|]. split; [apply strict_refuses|].
  split.
  - intros Hlo Hhi.
    destruct (interpolate_sorted_inside xs ys q) as
      (idx & s & Hidx & Hi & [Hl Hu] & Hs & Hls & Hv);
      [congruence | lia | apply sorted_fst_ascending | assumption
      | now rewrite Hlxs |].
    destruct (calculate_slopes_ok xs ys) as (m & Hm & Hlm & _); [congruence|].
    assert (Hne : item xs (idx + 1) ≠ item xs idx).
    { intros E. rewrite E in Hu. qc_order. }
    exists idx, m, s. eexists.
    split; [assumption|]. split; [lia|]. split; [assumption|].
    split; [lia|]. split; [assumption|]. split; [lia|].
    split; [|split; [|split; [|split]]].
    + rewrite spline_slopes_access;
        [assumption | apply strict_in_range | congruence].
    + intros i s0 Hi0 Hs0. apply elem_of_range in Hi0. unfold Np.len in *.
      split; [lia|]. split; [lia|].
      replace i with (Z.of_nat (Z.to_nat i)) by lia.
      rewrite akima_node_ok by lia.
      rewrite akima_node_with_ok by first [apply strict_in_range | lia].
      split; [reflexivity|]. now eexists.
    + eexists. split.
      * apply cubic_coefficients_with_ok;
          [apply strict_in_range | lia | lia | lia | assumption].
      * apply cubic_coefficients_ok; [lia | lia | lia | assumption].
    + unfold evaluate_segment_with. rewrite Hidx.
      rewrite cubic_coefficients_with_ok
        by first [apply strict_in_range | lia | assumption].
      cbn [mbind result_bind].
      rewrite (read_nat Np.strict) by first [apply strict_in_range | lia].
      reflexivity.
    + rewrite npoints_traced_sorted by assumption. exact Hv.
  - intros q'.
    destruct (npoints_total x y q' Hlen Hn) as (b & v & Hr & _ & Hb).
    exists b, v. split; [assumption|].
    split; intros ->; exact Hb.
Qed.

(** ** Order independence *)

(** The order of the sorted samples: by abscissa. *)
Definition pair_le (p q : Qc * Qc) : Prop := p.1 ≤ q.1.

Lemma sorted_pairs_strongly (x y : list Qc) :
  StronglySorted pair_le (sorted_pairs x y).
Proof.
  unfold sorted_pairs.
  apply StronglySorted_fmap with (R1 := key_le); [|apply sort_keys_sorted].
  intros p q H. exact H.
Qed.

Lemma NoDup_fst_inj (d : list (Qc * Qc)) (p q : Qc * Qc) :
  NoDup d.*1 → p ∈ d → q ∈ d → p.1 = q.1 → p = q.
Proof.
  induction d as [|r d IH]; intros Hnd Hp Hq E.
  - inversion Hp.
  - rewrite fmap_cons in Hnd. apply NoDup_cons in Hnd as [Hr Hnd].
    apply elem_of_cons in Hp as [->|Hp]; apply elem_of_cons in Hq as [->|Hq].
    + reflexivity.
    + exfalso. apply Hr. rewrite E. apply list_elem_of_fmap. now exists q.
    + exfalso. apply Hr. rewrite <- E. apply list_elem_of_fmap. now exists p.
    + now apply IH.
Qed.

Lemma sorted_pairs_of_dataset (d : list (Qc * Qc)) :
  sorted_pairs d.*1 d.*2 ≡ₚ d.
Proof.
  rewrite sorted_pairs_perm by (now rewrite !length_fmap).
  now rewrite zip_fst_snd.
Qed.

Lemma sorted_pairs_unique (d d' : list (Qc * Qc)) :
  NoDup d.*1 → d ≡ₚ d' → sorted_pairs d'.*1 d'.*2 = sorted_pairs d.*1 d.*2.
Proof.
  intros Hnd Hperm.
  apply (StronglySorted_unique_strong pair_le).
  - intros p p' Hp Hp' H1 H2.
    apply (NoDup_fst_inj d); [assumption| | |].
    + rewrite sorted_pairs_of_dataset in Hp. now rewrite Hperm.
    + now rewrite sorted_pairs_of_dataset in Hp'.
    + apply Qcle_antisym; assumption.
  - apply sorted_pairs_strongly.
  - apply sorted_pairs_strongly.
  - rewrite !sorted_pairs_of_dataset. now symmetry.
Qed.

(** C9: a dataset with pairwise distinct abscissas and any permutation of
    its samples get the same outcome at every query. *)
Theorem order_independence (d d' : list (Qc * Qc)) (q : Qc) :
  NoDup d.*1 → d ≡ₚ d' →
  akima_interpolate_npoints d'.*1 d'.*2 q
  = akima_interpolate_npoints d.*1 d.*2 q.
Proof.
  intros Hnd Hperm.
  pose proof (Permutation_length Hperm) as Hl.
  unfold akima_interpolate_npoints, akima_interpolate_npoints_traced.
  rewrite !bool_decide_false by (rewrite !length_fmap; auto).
  unfold Np.len. rewrite !length_fmap, <- Hl.
  destruct (Z.of_nat (length d) <? 2)%Z; [reflexivity|].
  rewrite !sort_samples_ok by (now rewrite !length_fmap).
  now rewrite (sorted_pairs_unique d d' Hnd Hperm).
Qed.

(** ** The cache *)

(** What [akima_interpolate_4points_with_cache] does after reading its
    entry. *)
Definition from_entry (e : cache_entry) (q : Qc) : result Qc :=
  out ← extrapolate (entry_x_sorted e) (entry_y_sorted e) q;
  match out with
  | Some r => Ok r.2
  | None =>
      snd <$> evaluate_segment (entry_x_sorted e) (entry_y_sorted e)
                (entry_s e) q
  end.

(** The entry a fresh computation builds for [(x_data, y_data)]. *)
Definition fresh_entry (x_data y_data : list Qc) : result cache_entry :=
  '(x_sorted, y_sorted) ← sort_samples x_data y_data;
  s ← calculate_spline_slopes x_sorted y_sorted;
  Ok (CacheEntry x_sorted y_sorted s).

(** The cached entry point with the dictionary taken away. *)
Definition uncached (x_data y_data : list Qc) (q : Qc) : result Qc :=
  e ← fresh_entry x_data y_data; from_entry e q.

(** The invariant of the dictionary: every entry is the fresh one of its
    key. *)
Definition cache_ok (c : cache) : Prop :=
  ∀ x y e, c !! (x, y) = Some e → fresh_entry x y = Ok e.

(** The dictionary after a sequence of calls, starting empty. *)
Definition cache_after (calls : list (list Qc * list Qc * Qc)) : cache :=
  foldl (fun c call =>
           (akima_interpolate_4points_with_cache c call.1.1 call.1.2 call.2).2)
    ∅ calls.

Lemma cache_ok_empty : cache_ok ∅.
Proof. intros x y e H. rewrite lookup_empty in H. discriminate. Qed.

Lemma cache_fill_fresh (c : cache) (x y : list Qc) :
  c !! (x, y) = None →
  cache_fill c x y = (e ← fresh_entry x y; Ok (<[(x, y) := e]> c)).
Proof.
  intros Hc. unfold cache_fill, fresh_entry. rewrite Hc.
  destruct (sort_samples x y) as [[xs ys]|err]; simpl; [|reflexivity].
  destruct (calculate_spline_slopes xs ys); reflexivity.
Qed.

Lemma cache_fill_hit (c : cache) (x y : list Qc) (e : cache_entry) :
  c !! (x, y) = Some e → cache_fill c x y = Ok c.
Proof. intros Hc. unfold cache_fill. now rewrite Hc. Qed.

(** One call: the outcome is the uncached one and the invariant is kept. *)
Lemma cached_call (c : cache) (x y : list Qc) (q : Qc) :
  cache_ok c →
  (akima_interpolate_4points_with_cache c x y q).1 = uncached x y q
  ∧ cache_ok (akima_interpolate_4points_with_cache c x y q).2.
Proof.
  intros Hok. unfold akima_interpolate_4points_with_cache, uncached.
  destruct (c !! (x, y)) as [e|] eqn:Hc.
  - rewrite (cache_fill_hit c x y e Hc), Hc. simpl.
    rewrite (Hok x y e Hc). simpl. split; [reflexivity|assumption].
  - rewrite (cache_fill_fresh c x y Hc).
    destruct (fresh_entry x y) as [e|err] eqn:He; simpl.
    + rewrite lookup_insert_eq. simpl. split; [reflexivity|].
      intros x' y' e' H. destruct (decide ((x, y) = (x', y'))) as [E|E].
      * injection E as <- <-. rewrite lookup_insert_eq in H. congruence.
      * rewrite lookup_insert_ne in H by assumption. now apply Hok.
    + split; [reflexivity|assumption].
Qed.

Lemma cache_after_snoc calls x y q :
  cache_after (calls ++ [(x, y, q)])
  = (akima_interpolate_4points_with_cache (cache_after calls) x y q).2.
Proof. unfold cache_after. now rewrite foldl_snoc. Qed.

Lemma cache_after_ok (calls : list (list Qc * list Qc * Qc)) :
  cache_ok (cache_after calls).
Proof.
  induction calls as [|[[x y] q] calls IH] using rev_ind.
  - apply cache_ok_empty.
  - rewrite cache_after_snoc. now apply cached_call.
Qed.

Lemma spline_slopes_needs_two (x y s : list Qc) :
  calculate_spline_slopes x y = Ok s → (2 ≤ length x)%nat.
Proof.
  unfold calculate_spline_slopes, calculate_spline_slopes_with, Np.len.
  destruct (Z.ltb_spec (Z.of_nat (length x)) 2); [discriminate|lia].
Qed.

Lemma spline_slopes_too_few (x y : list Qc) :
  (length x < 2)%nat →
  calculate_spline_slopes x y = Raise InsufficientPointsError.
Proof.
  intros H. unfold calculate_spline_slopes, calculate_spline_slopes_with, Np.len.
  destruct (Z.ltb_spec (Z.of_nat (length x)) 2); [reflexivity|lia].
Qed.

(** On arrays of one length the uncached computation is the N-point
    entry point. *)
Lemma uncached_npoints (x y : list Qc) (q : Qc) :
  length x = length y → uncached x y q = akima_interpolate_npoints x y q.
Proof.
  intros Hlen. unfold uncached, fresh_entry.
  rewrite (sort_samples_ok x y Hlen). simpl.
  destruct (decide (length x < 2)%nat) as [Hn|Hn].
  - rewrite spline_slopes_too_few by (now rewrite length_sorted_fst).
    simpl. symmetry. now apply npoints_validation.
  - unfold akima_interpolate_npoints.
    rewrite npoints_traced_sorted by lia.
    destruct (calculate_spline_slopes_ok (sorted_pairs x y).*1
                (sorted_pairs x y).*2) as (s & Hs & _).
    { now rewrite length_sorted_fst, length_sorted_snd. }
    { rewrite length_sorted_fst. lia. }
    rewrite Hs. simpl. unfold from_entry, interpolate_sorted. simpl.
    destruct (extrapolate _ _ q) as [[r|]|err]; simpl; try reflexivity.
    now rewrite Hs.
Qed.

Lemma four_points_npoints (x y : list Qc) (q : Qc) :
  length x = 4%nat → length y = 4%nat →
  akima_interpolate_4points x y q = akima_interpolate_npoints x y q.
Proof.
  intros Hx Hy.
  unfold akima_interpolate_4points, akima_interpolate_4points_traced,
    akima_interpolate_npoints, akima_interpolate_npoints_traced, Np.len.
  rewrite Hx, Hy. reflexivity.
Qed.

(** C6: whatever calls came before, the cached entry point returns on a
    dataset what the uncached N-point entry point returns (and, on four
    samples, what the four-point entry point returns); the outcome does
    not depend on the dictionary; and the tangents stored for the dataset
    are those a fresh [calculate_spline_slopes] gives on its sorted
    samples. *)
Theorem cache_transparency
  (calls : list (list Qc * list Qc * Qc)) (d : list (Qc * Qc)) (q : Qc) :
  let c := cache_after calls in
  let x := d.*1 in
  let y := d.*2 in
  let run := akima_interpolate_4points_with_cache c x y q in
  run.1 = akima_interpolate_npoints x y q
  ∧ (length d = 4%nat → run.1 = akima_interpolate_4points x y q)
  ∧ run.1 = (akima_interpolate_4points_with_cache ∅ x y q).1
  ∧ (∀ e, run.2 !! (x, y) = Some e →
          sort_samples x y = Ok (entry_x_sorted e, entry_y_sorted e)
          ∧ calculate_spline_slopes (entry_x_sorted e) (entry_y_sorted e)
            = Ok (entry_s e)).
Proof.
  intros c x y run.
  assert (Hlen : length x = length y) by (unfold x, y; now rewrite !length_fmap).
  destruct (cached_call c x y q (cache_after_ok calls)) as [Hv Hok].
  fold run in Hv, Hok.
  split; [|split; [|split]].
  - rewrite Hv. now apply uncached_npoints.
  - intros H4. rewrite Hv, uncached_npoints by assumption.
    symmetry. apply four_points_npoints; unfold x, y; now rewrite length_fmap.
  - rewrite Hv. symmetry. apply (cached_call ∅ x y q cache_ok_empty).
  - intros e He. apply Hok in He. unfold fresh_entry in He.
    destruct (sort_samples x y) as [[xs ys]|err]; simpl in He; [|discriminate].
    destruct (calculate_spline_slopes xs ys) as [s|err] eqn:Hs;
      simpl in He; [|discriminate].
    injection He as <-. simpl. auto.
Qed.

(** ** Validation of the inputs *)

(** C7, at the input [x = [0, 1]], [y = [0, 1, 2]], query [1/2]: the
    N-point entry point raises [LengthMismatchError], the cached entry
    point checks nothing and returns [1/2]. *)
Theorem cached_entry_point_skips_validation :
  akima_interpolate_npoints [num 0; num 1] [num 0; num 1; num 2] (Q2Qc (1 # 2))
  = Raise LengthMismatchError
  ∧ (akima_interpolate_4points_with_cache ∅
       [num 0; num 1] [num 0; num 1; num 2] (Q2Qc (1 # 2))).1
    = Ok (Q2Qc (1 # 2)).
Proof. split; by_evaluation. Qed.

(** * Instances at explicit inputs *)

Ltac qc_ne := intros E; apply eqb_true in E; vm_compute in E; discriminate.

Definition squares_x : list Qc := [num 0; num 1; num 2; num 3; num 4; num 5].
Definition squares_y : list Qc := [num 0; num 1; num 4; num 9; num 16; num 27].


Lemma calculate_spline_slopes_spec_witness :
  length squares_x = length squares_y ∧ (2 ≤ length squares_x)%nat
  ∧ ∃ m s, calculate_slopes squares_x squares_y = Ok m
           ∧ calculate_spline_slopes squares_x squares_y = Ok s
           ∧ length s = 6%nat
           ∧ item s 0 = item m 0 ∧ item s 5 = item m 4
           ∧ item s 1 = (item m 0 + item m 1) / 2.
Proof.
  split; [reflexivity|]. split; [simpl; lia|].
  destruct (calculate_spline_slopes_spec squares_x squares_y eq_refl
              ltac:(simpl; lia))
    as (m & s & Hm & Hs & _ & Hl & H0 & Hlast & _ & H3 & _).
  exists m, s. split; [exact Hm|]. split; [exact Hs|]. split; [exact Hl|].
  split; [exact H0|]. split; [exact Hlast|].
  apply H3. simpl. lia.
Defined.

Lemma hermite_interpolation_witness :
  let x := [num 0; num 1; num 2; num 3] in
  let y := [num 0; num 1; num 4; num 9] in
  NoDup x ∧ length x = length y ∧ (2 ≤ length x)%nat
  ∧ akima_interpolate_npoints x y (num 2) = Ok (num 4).
Proof.
  cbv zeta.
  assert (Hnd : NoDup [num 0; num 1; num 2; num 3]).
  { repeat (apply NoDup_cons; split;
            [rewrite ?not_elem_of_cons; repeat split;
             first [qc_ne | apply not_elem_of_nil]|]).
    apply NoDup_nil. exact I. }
  split; [exact Hnd|]. split; [reflexivity|]. split; [simpl; lia|].
  apply (proj2 hermite_interpolation
           [num 0; num 1; num 2; num 3] [num 0; num 1; num 4; num 9] 2%nat);
    [exact Hnd | reflexivity | simpl; lia | simpl; lia].
Defined.

Lemma duplicate_abscissa_spec_witness :
  let x := [num 1; num 1; num 2] in
  let y := [num 5; num 7; num 9] in
  length x = length y ∧ (2 ≤ length x)%nat
  ∧ ∃ v, akima_interpolate_npoints x y (Q2Qc (3 # 2)) = Ok v.
Proof.
  cbv zeta. split; [reflexivity|]. split; [simpl; lia|].
  apply (proj1 (proj2 duplicate_abscissa_spec)); [reflexivity|simpl; lia].
Defined.

Lemma locate_segment_spec_witness :
  let x := [num 0; num 1; num 2; num 4] in
  let q := num 1 in
  StronglySorted Qcle x ∧ item x 0 < q ∧ q < item x (length x - 1)
  ∧ ∃ i : nat, locate_segment x q = Z.of_nat i
      ∧ item x i < q ∧ q ≤ item x (i + 1).
Proof.
  cbv zeta.
  assert (Hs : StronglySorted Qcle [num 0; num 1; num 2; num 4])
    by sorted_concrete.
  assert (Hlo : item [num 0; num 1; num 2; num 4] 0 < num 1) by qc_lt.
  assert (Hhi : num 1 < item [num 0; num 1; num 2; num 4]
                          (length [num 0; num 1; num 2; num 4] - 1)) by qc_lt.
  split; [exact Hs|]. split; [exact Hlo|]. split; [exact Hhi|].
  destruct (locate_segment_spec [num 0; num 1; num 2; num 4] (num 1) Hs Hlo Hhi)
    as (i & Hi & _ & [Hl Hu] & _).
  exists i. split; [exact Hi|]. split; [exact Hl|exact Hu].
Defined.

Lemma cache_transparency_witness :
  let x := [num 0; num 1; num 2; num 3] in
  let y := [num 0; num 1; num 4; num 9] in
  let c := cache_after [(x, y, num 1); ([num 2; num 0], [num 1; num 3], num 1)] in
  (akima_interpolate_4points_with_cache c x y (Q2Qc (3 # 2))).1
  = akima_interpolate_4points x y (Q2Qc (3 # 2)).
Proof.
  cbv zeta.
  apply (proj1 (proj2 (cache_transparency
    [([num 0; num 1; num 2; num 3], [num 0; num 1; num 4; num 9], num 1);
     ([num 2; num 0], [num 1; num 3], num 1)]
    [(num 0, num 0); (num 1, num 1); (num 2, num 4); (num 3, num 9)]
    (Q2Qc (3 # 2))))).
  reflexivity.
Defined.

Lemma order_independence_witness :
  let d := [(num 0, num 0); (num 1, num 1); (num 2, num 4); (num 3, num 9)] in
  let d' := [(num 1, num 1); (num 0, num 0); (num 2, num 4); (num 3, num 9)] in
  NoDup d.*1 ∧ d ≡ₚ d'
  ∧ akima_interpolate_npoints d'.*1 d'.*2 (Q2Qc (3 # 2))
    = akima_interpolate_npoints d.*1 d.*2 (Q2Qc (3 # 2)).
Proof.
  cbv zeta.
  assert (Hnd : NoDup [(num 0, num 0); (num 1, num 1);
                       (num 2, num 4); (num 3, num 9)].*1).
  { simpl.
    repeat (apply NoDup_cons; split;
            [rewrite ?not_elem_of_cons; repeat split;
             first [qc_ne | apply not_elem_of_nil]|]).
    apply NoDup_nil. exact I. }
  split; [exact Hnd|]. split; [apply Permutation_swap|].
  apply order_independence; [exact Hnd|apply Permutation_swap].
Defined.

Lemma indexing_in_bounds_witness :
  length squares_x = length squares_y ∧ (2 ≤ length squares_x)%nat
  ∧ ∃ b v, akima_interpolate_npoints_traced squares_x squares_y (Q2Qc (5 # 2))
           = Ok (b, v)
           ∧ b ≠ BelowSingle ∧ b ≠ AboveSingle.
Proof.
  split; [reflexivity|]. split; [simpl; lia|].
  apply (indexing_in_bounds squares_x squares_y (Q2Qc (5 # 2)) eq_refl
           ltac:(simpl; lia)).
Defined.

(** * Further properties of the module *)

(** ** The joint sort *)

(** X1: on arrays of one length the joint sort by [np.argsort] succeeds,
    keeps every sample paired with its own ordinate (the sorted pairs are
    a permutation of the input pairs) and returns the abscissas in
    ascending order. *)
Theorem sort_samples_spec (x y : list Qc) :
  length x = length y →
  ∃ xs ys, sort_samples x y = Ok (xs, ys)
    ∧ length xs = length x ∧ length ys = length x
    ∧ zip xs ys ≡ₚ zip x y
    ∧ StronglySorted Qcle xs.
Proof.
  intros Hlen.
  exists (sorted_pairs x y).*1, (sorted_pairs x y).*2.
  split; [now apply sort_samples_ok|].
  split; [apply length_sorted_fst|]. split; [apply length_sorted_snd|].
  split; [|apply sorted_pairs_sorted].
  rewrite zip_fst_snd. now apply sorted_pairs_perm.
Qed.

Lemma sort_samples_spec_witness :
  let x := [num 3; num 0; num 2] in
  let y := [num 9; num 0; num 4] in
  length x = length y
  ∧ ∃ xs ys, sort_samples x y = Ok (xs, ys)
      ∧ zip xs ys ≡ₚ zip x y ∧ StronglySorted Qcle xs.
Proof.
  cbv zeta. split; [reflexivity|].
  destruct (sort_samples_spec [num 3; num 0; num 2] [num 9; num 0; num 4]
              eq_refl) as (xs & ys & Hs & _ & _ & Hp & Hsorted).
  exists xs, ys. split; [exact Hs|]. split; [exact Hp|exact Hsorted].
Defined.

(** ** The four-point entry point *)

(** X2: [akima_interpolate_4points] raises its arity error as soon as one
    of the two arrays does not hold four entries, and on four samples it
    returns a value, the one the N-point entry point returns. *)
Theorem four_points_gate (x y : list Qc) (q : Qc) :
  (length x ≠ 4%nat ∨ length y ≠ 4%nat →
   akima_interpolate_4points x y q = Raise FixedArityError)
  ∧ (length x = 4%nat → length y = 4%nat →
     akima_interpolate_4points x y q = akima_interpolate_npoints x y q
     ∧ ∃ v, akima_interpolate_4points x y q = Ok v).
Proof.
  split.
  - intros H. unfold akima_interpolate_4points, akima_interpolate_4points_traced.
    destruct H as [H|H].
    + now rewrite (bool_decide_true _ H).
    + rewrite (bool_decide_true (length y ≠ 4%nat) H).
      now rewrite orb_true_r.
  - intros Hx Hy. rewrite (four_points_npoints x y q Hx Hy).
    split; [reflexivity|].
    destruct (npoints_total x y q) as (b & v & _ & Hv & _); [lia|lia|].
    now exists v.
Qed.

(** ** Neighbouring segments *)



(** ** Samples on a straight line *)

Section Line.
Variables a b : Qc.







End Line.


(** ** Tangents lie between the secants *)










(** ** How the dictionary changes *)

(** The three ways a call can go: a hit, a miss whose fresh entry cannot
    be built, a miss that stores the fresh entry. *)
Lemma cached_dictionary (c : cache) (x y : list Qc) (q : Qc) :
  let run := akima_interpolate_4points_with_cache c x y q in
  (∃ e, c !! (x, y) = Some e ∧ run = (from_entry e q, c))
  ∨ (c !! (x, y) = None
     ∧ ∃ err, fresh_entry x y = Raise err ∧ run = (Raise err, c))
  ∨ (c !! (x, y) = None
     ∧ ∃ e, fresh_entry x y = Ok e
            ∧ run = (from_entry e q, <[(x, y) := e]> c)).
Proof.
  cbv zeta. unfold akima_interpolate_4points_with_cache.
  destruct (c !! (x, y)) as [e|] eqn:Hc.
  - left. exists e. split; [reflexivity|].
    now rewrite (cache_fill_hit c x y e Hc), Hc.
  - right. rewrite (cache_fill_fresh c x y Hc).
    destruct (fresh_entry x y) as [e|err]; simpl.
    + right. split; [reflexivity|]. exists e. split; [reflexivity|].
      now rewrite lookup_insert_eq.
    + left. split; [reflexivity|]. now exists err.
Qed.

(** X7: a call of the cached entry point never removes or replaces an
    entry of the dictionary and touches no key but its own: afterwards
    the dictionary is the one before, or the one before with the fresh
    entry of [(x_data, y_data)] added under a key that was absent; a call
    that returns a value leaves its key present, and a call repeated on
    the dictionary it left changes nothing more. *)
Theorem cache_only_grows (c : cache) (x y : list Qc) (q q' : Qc) :
  let run := akima_interpolate_4points_with_cache c x y q in
  c ⊆ run.2
  ∧ (∀ k, k ≠ (x, y) → run.2 !! k = c !! k)
  ∧ (run.2 = c
     ∨ c !! (x, y) = None
       ∧ ∃ e, fresh_entry x y = Ok e ∧ run.2 = <[(x, y) := e]> c)
  ∧ (∀ v, run.1 = Ok v → is_Some (run.2 !! (x, y)))
  ∧ (akima_interpolate_4points_with_cache run.2 x y q').2 = run.2.
Proof.
  intros run.
  pose proof (cached_dictionary c x y q) as Hd. cbv zeta in Hd. fold run in Hd.
  pose proof (cached_dictionary run.2 x y q') as Hd2. cbv zeta in Hd2.
  destruct Hd as [(e & Hc & ->)|[(Hc & err & He & ->)|(Hc & e & He & ->)]];
    simpl in *.
  - split; [reflexivity|]. split; [reflexivity|]. split; [now left|].
    split; [intros _ _; now exists e|].
    destruct Hd2 as [(e2 & _ & ->)|[(_ & err2 & _ & ->)|(Hc2 & _)]];
      [reflexivity|reflexivity|congruence].
  - split; [reflexivity|]. split; [reflexivity|]. split; [now left|].
    split; [discriminate|].
    destruct Hd2 as [(e2 & _ & ->)|[(_ & err2 & _ & ->)|(_ & e2 & He2 & _)]];
      [reflexivity|reflexivity|congruence].
  - split; [now apply insert_subseteq|].
    split; [intros k Hk; now rewrite lookup_insert_ne|].
    split; [right; split; [assumption|now exists e]|].
    split; [intros _ _; rewrite lookup_insert_eq; now eexists|].
    destruct Hd2 as [(e2 & _ & ->)|[(_ & err2 & _ & ->)|(Hc2 & _)]];
      [reflexivity|reflexivity|].
    rewrite lookup_insert_eq in Hc2. discriminate.
Qed.

(** ** Arrays of different lengths in the cached entry point *)

Lemma argsort_perm (x : list Qc) :
  Np.argsort x ≡ₚ Np.range 0 (Np.len x).
Proof.
  unfold Np.argsort. rewrite sort_keys_perm. unfold Np.enumerate.
  rewrite snd_zip; [reflexivity|]. rewrite length_range. unfold Np.len. lia.
Qed.

Lemma argsort_in_range (x : list Qc) :
  Forall (fun i => (0 ≤ i < Np.len x)%Z) (Np.argsort x).
Proof.
  rewrite argsort_perm. apply Forall_forall. intros i Hi.
  apply elem_of_range in Hi. lia.
Qed.

Lemma getitem_out_of_range (a : list Qc) (i : Z) :
  (Np.len a ≤ i)%Z → a.[i] = Raise IndexError.
Proof.
  intros Hi. unfold Np.getitem, Np.norm_index, Np.len in *.
  destruct (Z.ltb_spec i 0); [lia|].
  destruct (Z.leb_spec 0 i); [|lia].
  destruct (Z.ltb_spec i (Z.of_nat (length a))); [lia|]. reflexivity.
Qed.

Lemma getitem_raises_IndexError (a : list Qc) (i : Z) (err : exn) :
  a.[i] = Raise err → err = IndexError.
Proof.
  unfold Np.getitem. destruct (Np.norm_index a i) as [j|];
    [destruct (a !! j)|]; congruence.
Qed.

(** An index array with an entry beyond the array raises [IndexError]. *)
Lemma take_indices_out_of_range (a : list Qc) (idxs : list Z) :
  Exists (fun i => (Np.len a ≤ i)%Z) idxs →
  Np.take_indices a idxs = Raise IndexError.
Proof.
  induction 1 as [i idxs Hi|i idxs _ IH]; simpl.
  - now rewrite getitem_out_of_range.
  - destruct (a.[i]) as [v|err] eqn:E; simpl.
    + now rewrite IH.
    + now rewrite (getitem_raises_IndexError a i err E).
Qed.

Lemma fresh_entry_short_y (x y : list Qc) :
  (length y < length x)%nat → fresh_entry x y = Raise IndexError.
Proof.
  intros Hlt. unfold fresh_entry, sort_samples.
  rewrite (take_indices_ok x) by apply argsort_in_range. simpl.
  rewrite take_indices_out_of_range; [reflexivity|].
  rewrite argsort_perm. apply Exists_exists.
  exists (Np.len x - 1)%Z. split.
  - apply elem_of_range. unfold Np.len. lia.
  - unfold Np.len. lia.
Qed.

Lemma item_take (a : list Qc) (n i : nat) :
  (i < n)%nat → item (take n a) i = item a i.
Proof. intros Hi. unfold item. now rewrite lookup_take_lt. Qed.

Lemma sort_samples_long_y (x y : list Qc) :
  (length x ≤ length y)%nat →
  sort_samples x y = sort_samples x (take (length x) y).
Proof.
  intros Hle. unfold sort_samples.
  pose proof (argsort_in_range x) as Hr.
  rewrite (take_indices_ok x) by assumption. simpl.
  rewrite !take_indices_ok.
  - simpl. do 2 f_equal.
    change (map ?f ?l) with (f <$> l). apply Forall_fmap_ext_1.
    eapply Forall_impl; [exact Hr|]. intros i Hi. simpl.
    symmetry. apply item_take. unfold Np.len in Hi. lia.
  - eapply Forall_impl; [exact Hr|]. intros i Hi. simpl in *.
    unfold Np.len in *. rewrite length_take. lia.
  - eapply Forall_impl; [exact Hr|]. intros i Hi. simpl in *.
    unfold Np.len in *. lia.
Qed.

(** X8: whatever calls came before, the cached entry point called with
    fewer ordinates than abscissas raises [IndexError] (from
    [y_data[sorted_indices]]) and leaves the dictionary as it was. *)
Theorem cached_short_y
  (calls : list (list Qc * list Qc * Qc)) (x y : list Qc) (q : Qc) :
  (length y < length x)%nat →
  akima_interpolate_4points_with_cache (cache_after calls) x y q
  = (Raise IndexError, cache_after calls).
Proof.
  intros Hlt. pose proof (fresh_entry_short_y x y Hlt) as Hf.
  pose proof (cached_dictionary (cache_after calls) x y q) as Hd.
  cbv zeta in Hd.
  destruct Hd as [(e & Hc & _)|[(_ & err & He & ->)|(_ & e & He & _)]].
  - apply (cache_after_ok calls) in Hc. congruence.
  - congruence.
  - congruence.
Qed.

Lemma cached_short_y_witness :
  let x := [num 0; num 1; num 2] in
  let y := [num 0; num 1] in
  (length y < length x)%nat
  ∧ akima_interpolate_4points_with_cache (cache_after []) x y (num 1)
    = (Raise IndexError, cache_after []).
Proof.
  cbv zeta. split; [simpl; lia|].
  apply (cached_short_y [] [num 0; num 1; num 2] [num 0; num 1] (num 1)).
  simpl. lia.
Defined.

(** X9: whatever calls came before, the cached entry point called with
    at least as many ordinates as abscissas ignores the ordinates beyond
    [len(x_data)]: its outcome is that of the N-point entry point on
    [x_data] and the first [len(x_data)] ordinates (a value when there
    are at least two abscissas, [InsufficientPointsError] otherwise). *)
Theorem cached_long_y
  (calls : list (list Qc * list Qc * Qc)) (x y : list Qc) (q : Qc) :
  (length x ≤ length y)%nat →
  (akima_interpolate_4points_with_cache (cache_after calls) x y q).1
  = akima_interpolate_npoints x (take (length x) y) q
  ∧ ((2 ≤ length x)%nat →
     ∃ v, (akima_interpolate_4points_with_cache (cache_after calls) x y q).1
          = Ok v)
  ∧ ((length x < 2)%nat →
     akima_interpolate_4points_with_cache (cache_after calls) x y q
     = (Raise InsufficientPointsError, cache_after calls)).
Proof.
  intros Hle.
  assert (Hlt : length x = length (take (length x) y))
    by (rewrite length_take; lia).
  destruct (cached_call (cache_after calls) x y q (cache_after_ok calls))
    as [Hv _].
  assert (Hu : uncached x y q = akima_interpolate_npoints x (take (length x) y) q).
  { rewrite <- (uncached_npoints x (take (length x) y) q Hlt).
    unfold uncached, fresh_entry. now rewrite (sort_samples_long_y x y Hle). }
  split; [now rewrite Hv|]. split.
  - intros Hn. rewrite Hv, Hu.
    destruct (npoints_total x (take (length x) y) q Hlt Hn)
      as (b & v & _ & Hr & _).
    now exists v.
  - intros Hn.
    assert (Hf : fresh_entry x y = Raise InsufficientPointsError).
    { unfold fresh_entry. rewrite (sort_samples_long_y x y Hle).
      rewrite (sort_samples_ok _ _ Hlt). simpl.
      rewrite spline_slopes_too_few; [reflexivity|].
      now rewrite length_sorted_fst. }
    pose proof (cached_dictionary (cache_after calls) x y q) as Hd.
    cbv zeta in Hd.
    destruct Hd as [(e & Hc & _)|[(_ & err & He & ->)|(_ & e & He & _)]].
    + apply (cache_after_ok calls) in Hc. congruence.
    + congruence.
    + congruence.
Qed.

Lemma cached_long_y_witness :
  let x := [num 0; num 1] in
  let y := [num 0; num 1; num 2] in
  (length x ≤ length y)%nat
  ∧ (akima_interpolate_4points_with_cache (cache_after []) x y (Q2Qc (1 # 2))).1
    = akima_interpolate_npoints x (take (length x) y) (Q2Qc (1 # 2)).
Proof.
  cbv zeta. split; [simpl; lia|].
  apply (cached_long_y [] [num 0; num 1] [num 0; num 1; num 2] (Q2Qc (1 # 2))).
  simpl. lia.
Defined.

(** ** The copy under [Homework/] against the current module *)

(** The value the copy computes for a line through two samples. *)
Definition raw_line (y0 dy dx t : Qc) : Num.xnum :=
  Num.add (Num.Fin y0) (Num.mul (Num.div dy dx) (Num.Fin t)).

Lemma raw_line_finite (y0 dy dx t : Qc) :
  dx ≠ 0 → raw_line y0 dy dx t = Num.Fin (y0 + dy / dx * t).
Proof. intros H. unfold raw_line. now rewrite (div_finite _ _ H). Qed.

Lemma raw_line_not_finite (y0 dy t : Qc) :
  Num.isfinite (raw_line y0 dy 0 t) = false.
Proof.
  unfold raw_line, Num.div.
  replace (Num.eqb 0 0) with true by (symmetry; now apply eqb_true).
  destruct (Num.ltb 0 dy); [|destruct (Num.ltb dy 0)]; simpl;
    destruct (Num.eqb t 0); try reflexivity;
    destruct (Num.sign_pos t); reflexivity.
Qed.

Section HomeworkExtrapolate.
Variables xs ys : list Qc.
Variable q : Qc.
Hypothesis Hlen : length xs = length ys.
Hypothesis Hn : (2 ≤ length xs)%nat.

Lemma homework_below :
  q ≤ item xs 0 →
  Homework.extrapolate xs ys q
  = Ok (Some (raw_line (item ys 0) (item ys 1 - item ys 0)
                (item xs 1 - item xs 0) (q - item xs 0))).
Proof.
  intros Hq. unfold Homework.extrapolate, raw_line.
  rewrite !(getitem_in_range xs 0), !(getitem_in_range xs 1),
    !(getitem_in_range ys 0), !(getitem_in_range ys 1)
    by (unfold Np.len; lia).
  apply leb_true in Hq.
  replace (1 <? Np.len xs)%Z with true
    by (symmetry; apply Z.ltb_lt; unfold Np.len; lia).
  cbn [mbind result_bind].
  change (Z.to_nat 0) with 0%nat. change (Z.to_nat 1) with 1%nat. now rewrite Hq.
Qed.

Lemma homework_above :
  item xs 0 < q → item xs (length xs - 1) ≤ q →
  Homework.extrapolate xs ys q
  = Ok (Some (raw_line (item ys (length xs - 1))
                (item ys (length xs - 1) - item ys (length xs - 2))
                (item xs (length xs - 1) - item xs (length xs - 2))
                (q - item xs (length xs - 1)))).
Proof.
  intros Hlo Hhi. unfold Homework.extrapolate, raw_line.
  rewrite !(getitem_in_range xs 0) by (unfold Np.len; lia).
  rewrite !(getitem_negative xs (-1)), !(getitem_negative xs (-2)),
    !(getitem_negative ys (-1)), !(getitem_negative ys (-2))
    by (unfold Np.len; lia).
  apply leb_false in Hlo. apply geb_true in Hhi.
  replace (1 <? Np.len xs)%Z with true
    by (symmetry; apply Z.ltb_lt; unfold Np.len; lia).
  replace (Z.to_nat (-1 + Np.len xs)) with (length xs - 1)%nat
    by (unfold Np.len; lia).
  replace (Z.to_nat (-2 + Np.len xs)) with (length xs - 2)%nat
    by (unfold Np.len; lia).
  replace (Z.to_nat (-1 + Np.len ys)) with (length xs - 1)%nat
    by (unfold Np.len; lia).
  replace (Z.to_nat (-2 + Np.len ys)) with (length xs - 2)%nat
    by (unfold Np.len; lia).
  cbn [mbind result_bind].
  change (Z.to_nat 0) with 0%nat. change (Z.to_nat 1) with 1%nat. now rewrite Hlo, Hhi.
Qed.

Lemma homework_inside :
  item xs 0 < q → q < item xs (length xs - 1) →
  Homework.extrapolate xs ys q = Ok None.
Proof.
  intros Hlo Hhi. unfold Homework.extrapolate.
  rewrite !(getitem_in_range xs 0) by (unfold Np.len; lia).
  rewrite !(getitem_negative xs (-1)) by (unfold Np.len; lia).
  apply leb_false in Hlo. apply geb_false in Hhi.
  replace (Z.to_nat (-1 + Np.len xs)) with (length xs - 1)%nat
    by (unfold Np.len; lia).
  cbn [mbind result_bind].
  change (Z.to_nat 0) with 0%nat. change (Z.to_nat 1) with 1%nat. now rewrite Hlo, Hhi.
Qed.
End HomeworkExtrapolate.

Lemma homework_unfold (x y : list Qc) (q : Qc) :
  length x = length y → (2 ≤ length x)%nat →
  Homework.akima_interpolate_npoints x y q
  = (out ← Homework.extrapolate (sorted_pairs x y).*1 (sorted_pairs x y).*2 q;
     match out with
     | Some v => Ok v
     | None =>
         Num.Fin <$> (snd <$> interpolate_sorted (sorted_pairs x y).*1
                                (sorted_pairs x y).*2 q)
     end).
Proof.
  intros Hlen Hn. unfold Homework.akima_interpolate_npoints.
  rewrite bool_decide_false by (intros H; apply H; exact Hlen).
  destruct (Z.ltb_spec (Np.len x) 2) as [H|H]; [unfold Np.len in H; lia|].
  rewrite (sort_samples_ok x y Hlen). simpl.
  set (xs := (sorted_pairs x y).*1). set (ys := (sorted_pairs x y).*2).
  assert (Hl : length xs = length ys)
    by (unfold xs, ys; now rewrite length_sorted_fst, length_sorted_snd).
  assert (Hn' : (2 ≤ length xs)%nat)
    by (unfold xs; now rewrite length_sorted_fst).
  destruct (Qclt_le_dec (item xs 0) q) as [Hlo|Hlo].
  - destruct (Qclt_le_dec q (item xs (length xs - 1))) as [Hhi|Hhi].
    + rewrite homework_inside by assumption. simpl.
      unfold interpolate_sorted.
      rewrite extrapolate_inside by assumption. simpl.
      destruct (calculate_spline_slopes xs ys) as [s|err]; simpl;
        [|reflexivity].
      now destruct (evaluate_segment xs ys s q) as [[b v]|err].
    + now rewrite homework_above by assumption.
  - now rewrite homework_below by assumption.
Qed.

(** X10: on pairwise distinct abscissas the copy of
    [akima_interpolate_npoints] under [Homework/] and the current one
    return the same outcome for every query, the same finite value or
    the same exception. *)
Theorem homework_agrees_on_distinct (x y : list Qc) (q : Qc) :
  NoDup x →
  Homework.akima_interpolate_npoints x y q
  = Num.Fin <$> akima_interpolate_npoints x y q.
Proof.
  intros Hnd.
  destruct (decide (length x = length y)) as [Hlen|Hlen].
  2:{ unfold Homework.akima_interpolate_npoints, akima_interpolate_npoints,
        akima_interpolate_npoints_traced.
      now rewrite !bool_decide_true. }
  destruct (decide (length x < 2)%nat) as [Hn|Hn].
  { unfold Homework.akima_interpolate_npoints, akima_interpolate_npoints,
      akima_interpolate_npoints_traced.
    rewrite !bool_decide_false by (intros H; apply H; exact Hlen).
    destruct (Z.ltb_spec (Np.len x) 2) as [H|H]; [reflexivity|].
    unfold Np.len in H. lia. }
  rewrite homework_unfold by lia.
  unfold akima_interpolate_npoints. rewrite npoints_traced_sorted by lia.
  set (xs := (sorted_pairs x y).*1). set (ys := (sorted_pairs x y).*2).
  assert (Hl : length xs = length ys)
    by (unfold xs, ys; now rewrite length_sorted_fst, length_sorted_snd).
  assert (Hn' : (2 ≤ length xs)%nat)
    by (unfold xs; rewrite length_sorted_fst; lia).
  assert (Hstrict : strictly_ascending xs) by (now apply sorted_fst_strict).
  destruct (Qclt_le_dec (item xs 0) q) as [Hlo|Hlo].
  - destruct (Qclt_le_dec q (item xs (length xs - 1))) as [Hhi|Hhi].
    + now rewrite homework_inside by assumption.
    + rewrite homework_above, interpolate_sorted_above by assumption.
      unfold above_value.
      pose proof (Hstrict (length xs - 2)%nat (length xs - 1)%nat ltac:(lia))
        as Hp.
      assert (Hne : item xs (length xs - 1) - item xs (length xs - 2) ≠ 0).
      { rewrite Qcminus_eq_0. intros E. rewrite E in Hp. qc_order. }
      rewrite decide_False by exact Hne. simpl.
      now rewrite (raw_line_finite _ _ _ _ Hne).
  - rewrite homework_below, interpolate_sorted_below by assumption.
    unfold below_value.
    pose proof (Hstrict 0%nat 1%nat ltac:(lia)) as Hp.
    assert (Hne : item xs 1 - item xs 0 ≠ 0).
    { rewrite Qcminus_eq_0. intros E. rewrite E in Hp. qc_order. }
    rewrite decide_False by exact Hne. simpl.
    now rewrite (raw_line_finite _ _ _ _ Hne).
Qed.

(** Where the sorted samples come from: position [j] of the sorted
    arrays holds the sample of some position of the input, and two
    positions of the sorted arrays hold samples of two positions of the
    input. *)
Definition sorted_from (x : list Qc) (j : nat) : nat :=
  Z.to_nat (default 0%Z (Np.argsort x !! j)).

Lemma range_NoDup (lo hi : Z) : NoDup (Np.range lo hi).
Proof.
  unfold Np.range. apply NoDup_fmap_2; [|apply NoDup_seq].
  intros k k' H. lia.
Qed.

Lemma sorted_from_spec (x y : list Qc) (j : nat) :
  (j < length x)%nat →
  (sorted_from x j < length x)%nat
  ∧ item (sorted_pairs x y).*1 j = item x (sorted_from x j)
  ∧ item (sorted_pairs x y).*2 j = item y (sorted_from x j).
Proof.
  intros Hj. unfold sorted_from, Np.argsort, sorted_pairs.
  destruct (lookup_lt_is_Some_2 (Np.sort_keys (Np.enumerate x)) j) as [p Hp].
  { now rewrite length_sort_keys, length_enumerate. }
  pose proof (sorted_names x) as Hn. rewrite Forall_lookup in Hn.
  destruct (Hn j p Hp) as [Hr Hx].
  change (map ?f ?l) with (f <$> l).
  rewrite (list_lookup_fmap snd), Hp. simpl.
  split; [unfold Np.len in Hr; lia|]. split.
  - apply lookup_item. rewrite <- list_fmap_compose, list_lookup_fmap, Hp.
    simpl. f_equal. symmetry. now apply lookup_item.
  - apply lookup_item. rewrite <- list_fmap_compose, list_lookup_fmap, Hp.
    reflexivity.
Qed.

Lemma sorted_from_inj (x : list Qc) (j j' : nat) :
  (j < length x)%nat → (j' < length x)%nat →
  sorted_from x j = sorted_from x j' → j = j'.
Proof.
  intros Hj Hj' E. unfold sorted_from in E.
  assert (Hl : length (Np.argsort x) = length x).
  { unfold Np.argsort. now rewrite length_fmap, length_sort_keys, length_enumerate. }
  destruct (lookup_lt_is_Some_2 (Np.argsort x) j) as [i Hi]; [lia|].
  destruct (lookup_lt_is_Some_2 (Np.argsort x) j') as [i' Hi']; [lia|].
  rewrite Hi, Hi' in E. simpl in E.
  pose proof (argsort_in_range x) as Hr. rewrite Forall_lookup in Hr.
  pose proof (Hr j i Hi). pose proof (Hr j' i' Hi').
  assert (i = i') as <- by lia.
  apply (NoDup_lookup (Np.argsort x) j j' i); [|assumption..].
  rewrite argsort_perm. apply range_NoDup.
Qed.

Lemma sorted_abscissas (x y : list Qc) :
  length x = length y →
  StronglySorted Qcle (sorted_pairs x y).*1 ∧ (sorted_pairs x y).*1 ≡ₚ x.
Proof.
  intros Hlen. split; [apply sorted_pairs_sorted|now apply sorted_fst_perm].
Qed.

(** X11: let [xs] be the abscissas in ascending order.  When the two
    smallest coincide, the copy under [Homework/] returns for every query
    at or below them a value that is not finite ([inf], [-inf] or
    [nan]), where the current module returns the ordinate of a sample of
    smallest abscissa; and likewise at or above the two largest
    abscissas when those coincide. *)
Theorem homework_not_finite (x y : list Qc) (q : Qc) :
  length x = length y → (2 ≤ length x)%nat →
  let xs := (sorted_pairs x y).*1 in
  let n := length x in
  (StronglySorted Qcle xs ∧ xs ≡ₚ x)
  ∧ (q ≤ item xs 0 → item xs 1 = item xs 0 →
     (∃ v, Homework.akima_interpolate_npoints x y q = Ok v
           ∧ Num.isfinite v = false)
     ∧ ∃ i, (i < n)%nat ∧ item x i = item xs 0
            ∧ akima_interpolate_npoints x y q = Ok (item y i))
  ∧ (item xs 0 < q → item xs (n - 1) ≤ q →
     item xs (n - 1) = item xs (n - 2) →
     (∃ v, Homework.akima_interpolate_npoints x y q = Ok v
           ∧ Num.isfinite v = false)
     ∧ ∃ i, (i < n)%nat ∧ item x i = item xs (n - 1)
            ∧ akima_interpolate_npoints x y q = Ok (item y i)).
Proof.
  intros Hlen Hn xs n. set (ys := (sorted_pairs x y).*2).
  assert (Hlxs : length xs = n) by apply length_sorted_fst.
  assert (Hl : length xs = length ys)
    by (unfold xs, ys; now rewrite length_sorted_fst, length_sorted_snd).
  assert (Hn' : (2 ≤ length xs)%nat) by (rewrite Hlxs; exact Hn).
  split; [now apply sorted_abscissas|].
  rewrite homework_unfold by assumption.
  unfold akima_interpolate_npoints. rewrite npoints_traced_sorted by assumption.
  fold xs ys. split.
  - intros Hq E. rewrite homework_below, interpolate_sorted_below by assumption.
    unfold below_value. rewrite E.
    replace (item xs 0 - item xs 0) with 0 by ring.
    rewrite decide_True by reflexivity. split.
    + eexists. split; [reflexivity|]. apply raw_line_not_finite.
    + destruct (sorted_from_spec x y 0 ltac:(lia)) as (Hi & Hx & Hy).
      exists (sorted_from x 0). split; [exact Hi|]. split; [now symmetry|].
      simpl. f_equal. exact Hy.
  - intros Hlo Hhi E. unfold n in *.
    destruct (sorted_from_spec x y (length x - 1)) as (Hi & Hx & Hy); [lia|].
    fold xs ys in Hx, Hy.
    rewrite <- Hlxs in Hi, Hx, Hy, Hhi, E |- *.
    rewrite homework_above, interpolate_sorted_above by assumption.
    unfold above_value. rewrite E.
    replace (item xs (length xs - 2) - item xs (length xs - 2)) with 0 by ring.
    rewrite decide_True by reflexivity. split.
    + eexists. split; [reflexivity|]. apply raw_line_not_finite.
    + exists (sorted_from x (length xs - 1)).
      split; [exact Hi|]. split.
      * rewrite <- E. now symmetry.
      * simpl. f_equal. exact Hy.
Qed.

Lemma homework_agrees_on_distinct_witness :
  let x := [num 3; num 0; num 2; num 1] in
  let y := [num 9; num 0; num 4; num 1] in
  NoDup x
  ∧ Homework.akima_interpolate_npoints x y (num (-1))
    = Num.Fin <$> akima_interpolate_npoints x y (num (-1)).
Proof.
  cbv zeta.
  assert (Hnd : NoDup [num 3; num 0; num 2; num 1]).
  { repeat (apply NoDup_cons; split;
            [rewrite ?not_elem_of_cons; repeat split;
             first [qc_ne | apply not_elem_of_nil]|]).
    apply NoDup_nil. exact I. }
  split; [exact Hnd|].
  apply homework_agrees_on_distinct. exact Hnd.
Defined.

Lemma homework_not_finite_witness :
  let x := [num 1; num 2; num 1] in
  let y := [num 5; num 6; num 7] in
  length x = length y ∧ (2 ≤ length x)%nat
  ∧ num 0 ≤ item (sorted_pairs x y).*1 0
  ∧ item (sorted_pairs x y).*1 1 = item (sorted_pairs x y).*1 0
  ∧ (∃ v, Homework.akima_interpolate_npoints x y (num 0) = Ok v
          ∧ Num.isfinite v = false)
  ∧ ∃ i, (i < length x)%nat ∧ item x i = item (sorted_pairs x y).*1 0
         ∧ akima_interpolate_npoints x y (num 0) = Ok (item y i).
Proof.
  cbv zeta.
  assert (Hq : num 0 ≤ item (sorted_pairs [num 1; num 2; num 1]
                               [num 5; num 6; num 7]).*1 0) by qc_le.
  assert (He : item (sorted_pairs [num 1; num 2; num 1]
                       [num 5; num 6; num 7]).*1 1
               = item (sorted_pairs [num 1; num 2; num 1]
                         [num 5; num 6; num 7]).*1 0).
  { apply eqb_true. vm_compute. reflexivity. }
  split; [reflexivity|]. split; [simpl; lia|].
  split; [exact Hq|]. split; [exact He|].
  apply (proj1 (proj2 (homework_not_finite [num 1; num 2; num 1]
                  [num 5; num 6; num 7] (num 0) eq_refl ltac:(simpl; lia))));
    [exact Hq|exact He].
Defined.

(** ** Too few samples *)

(** X3: on arrays of one length [calculate_spline_slopes] raises
    [InsufficientPointsError] when there are fewer than two samples and
    returns one tangent per sample otherwise; with fewer than two
    abscissas it raises whatever the ordinates are. *)
Theorem spline_slopes_gate (x y : list Qc) :
  ((length x < 2)%nat →
   calculate_spline_slopes x y = Raise InsufficientPointsError)
  ∧ (length x = length y →
     ((length x < 2)%nat
      ↔ calculate_spline_slopes x y = Raise InsufficientPointsError)
     ∧ ((2 ≤ length x)%nat
        ↔ ∃ s, calculate_spline_slopes x y = Ok s ∧ length s = length x)).
Proof.
  split; [apply spline_slopes_too_few|]. intros Hlen. split; split.
  - apply spline_slopes_too_few.
  - intros Hr. destruct (decide (length x < 2)%nat) as [H|H]; [exact H|].
    destruct (calculate_spline_slopes_ok x y Hlen ltac:(lia)) as (s & Hs & _).
    congruence.
  - now apply calculate_spline_slopes_ok.
  - intros (s & Hs & _). now apply (spline_slopes_needs_two x y s).
Qed.

(** ** Curves *)

(** The comprehension
    [[akima_interpolate_npoints(x_data, y_data, x) for x in x_interp]]
    of [visualize.py]: the queries are served in order and the first
    exception ends the evaluation. *)
Fixpoint akima_curve (x_data y_data x_interp : list Qc) : result (list Qc) :=
  match x_interp with
  | [] => Ok []
  | x :: rest =>
      v ← akima_interpolate_npoints x_data y_data x;
      vs ← akima_curve x_data y_data rest;
      Ok (v :: vs)
  end.

Lemma akima_curve_ok (x y qs : list Qc) :
  length x = length y → (2 ≤ length x)%nat →
  ∃ vs, akima_curve x y qs = Ok vs
    ∧ length vs = length qs
    ∧ ∀ k q, qs !! k = Some q →
        akima_interpolate_npoints x y q = Ok (item vs k).
Proof.
  intros Hlen Hn. induction qs as [|q qs (vs & Hvs & Hl & Hk)]; simpl.
  - exists []. split; [reflexivity|]. split; [reflexivity|].
    intros k q H. rewrite lookup_nil in H. discriminate.
  - destruct (npoints_total x y q Hlen Hn) as (b & v & _ & Hv & _).
    rewrite Hv, Hvs. simpl. exists (v :: vs).
    split; [reflexivity|]. split; [simpl; now rewrite Hl|].
    intros [|k] q' H; simpl in H.
    + injection H as <-. exact Hv.
    + rewrite item_cons_S. now apply Hk.
Qed.

(** X12: the curve of a dataset of at least two samples has one value
    per query, the value the N-point entry point returns for it, and no
    query makes it fail; on arrays that fail the validation the curve of
    at least one query raises the entry point's exception, and the curve
    of no query at all is empty without an exception. *)
Theorem akima_curve_spec (x y qs : list Qc) :
  (length x = length y → (2 ≤ length x)%nat →
   ∃ vs, akima_curve x y qs = Ok vs
     ∧ length vs = length qs
     ∧ ∀ k q, qs !! k = Some q →
         akima_interpolate_npoints x y q = Ok (item vs k))
  ∧ (length x ≠ length y → qs ≠ [] →
     akima_curve x y qs = Raise LengthMismatchError)
  ∧ (length x = length y → (length x < 2)%nat → qs ≠ [] →
     akima_curve x y qs = Raise InsufficientPointsError)
  ∧ akima_curve x y [] = Ok [].
Proof.
  split; [apply akima_curve_ok|]. split; [|split; [|reflexivity]].
  - intros Hne Hqs. destruct qs as [|q qs]; [congruence|]. simpl.
    now rewrite (proj1 (npoints_validation x y q) Hne).
  - intros Hlen Hn Hqs. destruct qs as [|q qs]; [congruence|]. simpl.
    now rewrite (proj2 (npoints_validation x y q) Hlen Hn).
Qed.

Lemma spline_slopes_gate_witness :
  let x := [num 0; num 1; num 3] in
  let y := [num 0; num 2; num 1] in
  length x = length y
  ∧ ∃ s, calculate_spline_slopes x y = Ok s ∧ length s = length x.
Proof.
  cbv zeta. split; [reflexivity|].
  apply (proj2 (spline_slopes_gate [num 0; num 1; num 3]
                  [num 0; num 2; num 1]) eq_refl).
  simpl. lia.
Defined.

Lemma akima_curve_spec_witness :
  length squares_x = length squares_y ∧ (2 ≤ length squares_x)%nat
  ∧ ∃ vs, akima_curve squares_x squares_y [num (-1); Q2Qc (5 # 2); num 7]
          = Ok vs
      ∧ length vs = 3%nat.
Proof.
  split; [reflexivity|]. split; [simpl; lia|].
  destruct (proj1 (akima_curve_spec squares_x squares_y
                     [num (-1); Q2Qc (5 # 2); num 7])
              eq_refl ltac:(simpl; lia)) as (vs & Hvs & Hl & _).
  exists vs. split; [exact Hvs|exact Hl].
Defined.

(** ** The N-point entry point as a whole *)

(** X13: let [xs] be the abscissas in ascending order.  For a query
    strictly below [xs[0]] the N-point entry point of the current module
    returns the value at the query of the straight line through a sample
    of abscissa [xs[0]] and another sample, of abscissa [xs[1]], or the
    ordinate of the former when the two abscissas coincide; and
    symmetrically strictly above [xs[n-1]], with [xs[n-1]] and
    [xs[n-2]]. *)
Theorem linear_extrapolation (x y : list Qc) (q : Qc) :
  length x = length y → (2 ≤ length x)%nat →
  let xs := (sorted_pairs x y).*1 in
  let n := length x in
  (StronglySorted Qcle xs ∧ xs ≡ₚ x)
  ∧ (q < item xs 0 →
     ∃ i j, (i < n)%nat ∧ (j < n)%nat ∧ i ≠ j
       ∧ item x i = item xs 0 ∧ item x j = item xs 1
       ∧ akima_interpolate_npoints x y q
         = Ok (if decide (item x j = item x i) then item y i
               else item y i
                    + (item y j - item y i) / (item x j - item x i)
                      * (q - item x i)))
  ∧ (item xs (n - 1) < q →
     ∃ i j, (i < n)%nat ∧ (j < n)%nat ∧ i ≠ j
       ∧ item x i = item xs (n - 1) ∧ item x j = item xs (n - 2)
       ∧ akima_interpolate_npoints x y q
         = Ok (if decide (item x i = item x j) then item y i
               else item y i
                    + (item y i - item y j) / (item x i - item x j)
                      * (q - item x i))).
Proof.
  intros Hlen Hn. cbv zeta.
  split; [now apply sorted_abscissas|].
  destruct (npoints_extrapolation x y q Hlen Hn) as [Hbelow Habove].
  cbv zeta in Hbelow, Habove. split.
  - intros Hq.
    destruct (sorted_from_spec x y 0 ltac:(lia)) as (Hi & Hxi & Hyi).
    destruct (sorted_from_spec x y 1 ltac:(lia)) as (Hj & Hxj & Hyj).
    exists (sorted_from x 0), (sorted_from x 1).
    split; [exact Hi|]. split; [exact Hj|]. split.
    { intros E. apply sorted_from_inj in E; lia. }
    split; [now symmetry|]. split; [now symmetry|].
    rewrite (Hbelow Hq), Hxi, Hxj, Hyi, Hyj. reflexivity.
  - intros Hq.
    destruct (sorted_from_spec x y (length x - 1) ltac:(lia))
      as (Hi & Hxi & Hyi).
    destruct (sorted_from_spec x y (length x - 2) ltac:(lia))
      as (Hj & Hxj & Hyj).
    exists (sorted_from x (length x - 1)), (sorted_from x (length x - 2)).
    split; [exact Hi|]. split; [exact Hj|]. split.
    { intros E. apply sorted_from_inj in E; lia. }
    split; [now symmetry|]. split; [now symmetry|].
    rewrite (Habove Hq), Hxi, Hxj, Hyi, Hyj. reflexivity.
Qed.

Lemma linear_extrapolation_witness :
  let x := [num 2; num 0; num 1] in
  let y := [num 4; num 0; num 1] in
  length x = length y ∧ (2 ≤ length x)%nat
  ∧ num (-1) < item (sorted_pairs x y).*1 0
  ∧ ∃ i j, i ≠ j ∧ item x i = item (sorted_pairs x y).*1 0
      ∧ item x j = item (sorted_pairs x y).*1 1
      ∧ akima_interpolate_npoints x y (num (-1))
        = Ok (if decide (item x j = item x i) then item y i
              else item y i
                   + (item y j - item y i) / (item x j - item x i)
                     * (num (-1) - item x i)).
Proof.
  cbv zeta.
  assert (Hq : num (-1) < item (sorted_pairs [num 2; num 0; num 1]
                                  [num 4; num 0; num 1]).*1 0) by qc_lt.
  split; [reflexivity|]. split; [simpl; lia|]. split; [exact Hq|].
  destruct (proj1 (proj2 (linear_extrapolation [num 2; num 0; num 1]
                            [num 4; num 0; num 1] (num (-1))
                            eq_refl ltac:(simpl; lia))) Hq)
    as (i & j & _ & _ & Hij & Hi & Hj & Hv).
  exists i, j. split; [exact Hij|]. split; [exact Hi|]. split; [exact Hj|].
  exact Hv.
Defined.

(** X14: what [akima_interpolate_npoints] returns is decided by the
    lengths alone: [LengthMismatchError] exactly when the two lengths
    differ (checked first, also on fewer than two samples),
    [InsufficientPointsError] exactly when they agree on fewer than two
    samples, and a value in every other case, for every query; no other
    exception leaves it. *)
Theorem npoints_outcome (x y : list Qc) (q : Qc) :
  (length x ≠ length y
   ↔ akima_interpolate_npoints x y q = Raise LengthMismatchError)
  ∧ (length x = length y ∧ (length x < 2)%nat
     ↔ akima_interpolate_npoints x y q = Raise InsufficientPointsError)
  ∧ (length x = length y ∧ (2 ≤ length x)%nat
     ↔ ∃ v, akima_interpolate_npoints x y q = Ok v).
Proof.
  destruct (npoints_validation x y q) as [Hmis Hfew].
  destruct (decide (length x = length y)) as [Hlen|Hlen].
  - destruct (decide (length x < 2)%nat) as [Hn|Hn].
    + specialize (Hfew Hlen Hn). rewrite Hfew.
      split; [split; [contradiction|discriminate]|].
      split; [split; [reflexivity|auto]|].
      split; [intros [_ H]; lia|intros [v Hv]; discriminate].
    + destruct (npoints_total x y q Hlen ltac:(lia)) as (b & v & _ & Hv & _).
      rewrite Hv.
      split; [split; [contradiction|discriminate]|].
      split; [split; [intros [_ H]; lia|discriminate]|].
      split; [intros _; now exists v|intros _; split; [assumption|lia]].
  - specialize (Hmis Hlen). rewrite Hmis.
    split; [split; [reflexivity|auto]|].
    split; [split; [intros [H _]; contradiction|discriminate]|].
    split; [intros [H _]; contradiction|intros [v Hv]; discriminate].
Qed.

(** ** The entries of the dictionary *)

(** X15: after any sequence of calls every entry of the dictionary holds,
    for its key [(x_data, y_data)], the jointly sorted samples and the
    tangents [calculate_spline_slopes] gives on them: at least two
    abscissas in ascending order with one tangent each. *)
Theorem cache_entries_fresh
  (calls : list (list Qc * list Qc * Qc)) (x y : list Qc) (e : cache_entry) :
  cache_after calls !! (x, y) = Some e →
  sort_samples x y = Ok (entry_x_sorted e, entry_y_sorted e)
  ∧ calculate_spline_slopes (entry_x_sorted e) (entry_y_sorted e)
    = Ok (entry_s e)
  ∧ (2 ≤ length x)%nat ∧ (length x ≤ length y)%nat
  ∧ length (entry_x_sorted e) = length x
  ∧ StronglySorted Qcle (entry_x_sorted e).
Proof.
  intros He. apply (cache_after_ok calls) in He.
  destruct (decide (length x ≤ length y)%nat) as [Hle|Hle].
  2:{ rewrite fresh_entry_short_y in He by lia. discriminate. }
  unfold fresh_entry in He.
  pose proof (sort_samples_long_y x y Hle) as Hsort.
  assert (Hlt : length x = length (take (length x) y))
    by (rewrite length_take; lia).
  rewrite (sort_samples_ok _ _ Hlt) in Hsort.
  rewrite Hsort in He. simpl in He.
  destruct (calculate_spline_slopes _ _) as [s|err] eqn:Hs; [|discriminate].
  simpl in He. injection He as <-. simpl.
  split; [exact Hsort|]. split; [exact Hs|].
  pose proof (spline_slopes_needs_two _ _ _ Hs) as Hn.
  rewrite length_sorted_fst in Hn.
  split; [exact Hn|]. split; [exact Hle|].
  split; [apply length_sorted_fst|apply sorted_pairs_sorted].
Qed.

Lemma cache_entries_fresh_witness :
  let x := [num 2; num 0; num 1] in
  let y := [num 4; num 0; num 1] in
  let calls := (x, y, num 1) :: nil in
  ∃ e, cache_after calls !! (x, y) = Some e
    ∧ calculate_spline_slopes (entry_x_sorted e) (entry_y_sorted e)
      = Ok (entry_s e)
    ∧ StronglySorted Qcle (entry_x_sorted e).
Proof.
  cbv zeta.
  destruct (cache_after
              (([num 2; num 0; num 1], [num 4; num 0; num 1], num 1) :: nil)
            !! ([num 2; num 0; num 1], [num 4; num 0; num 1])) as [e|] eqn:He.
  - exists e. split; [reflexivity|].
    destruct (cache_entries_fresh _ _ _ _ He) as (_ & Hs & _ & _ & _ & Hsorted).
    split; [exact Hs|exact Hsorted].
  - exfalso. vm_compute in He. discriminate.
Defined.

(** ** A change of scale of the ordinates *)

Section Affine.
Variables c d : Qc.





Section OnSorted.
Variables xs ys : list Qc.
Hypothesis Hlen : length xs = length ys.
Hypothesis Hn : (2 ≤ length xs)%nat.





End OnSorted.

End Affine.
